(** * Health Quest trivia: the game session engine of [src/pages/Game.tsx]

    A shallow embedding of the engine part of the React component [Game]:
    the question bank and scoring table, [shuffle], the memoised batch
    [filtered], the leaderboard accessors [readLeaderboard] and
    [writeLeaderboard], and the event handlers [handleStart],
    [handleOption], [next] and [restart], together with the hook that
    resets the session whenever the component is in its setup step.  The
    older page, which inlines the question bank and filters by category
    as well, differs in its selector only ([select_scoped]).

    Conventions.
    - React state is a record; a handler maps the state it closes over to
      the state after its queued updates, and [render] replays the render
      that follows (the [useMemo] cell and the [useEffect] reset).
    - [Math.random] is an oracle indexed by the number of calls made so
      far; the call counter is part of the world.  Its values are
      binary64 numbers, and the product in [shuffle] is rounded as
      binary64 products are.
    - Strings that the page takes apart or puts together (the player
      name, dates, stored names) are sequences of UTF-16 code units.
    - [localStorage] is a finite map from keys to stored texts, or is
      denied altogether (every access throws).  A stored text is known
      by what [JSON.parse] makes of it.
    - Notifications ([toast]) and sound effects are collected in the list
      of notices a handler returns. *)

From Stdlib Require Import ZArith Ascii String Sorted.
From stdpp Require Import base tactics option list numbers strings gmap sorting.

Local Open Scope Z_scope.
Local Open Scope nat_scope.

(** ** Data model ([@/data/questions], inlined in the older page) *)

Inductive Difficulty := easy | medium | hard.

Inductive Category := HIV_Self_Testing | PrEP | Reproductive_Health.

#[global] Instance Difficulty_eq_dec : EqDecision Difficulty.
Proof. solve_decision. Defined.

#[global] Instance Category_eq_dec : EqDecision Category.
Proof. solve_decision. Defined.

Module Question.
Record t := mk {
  id : string;
  category : Category;
  difficulty : Difficulty;
  text : string;
  options : list string;
  answerIndex : nat;
  explanation : option string
}.
End Question.
Abbreviation Question := Question.t.

(** [DIFFICULTY_POINTS: Record<Difficulty, number>] *)
Definition DIFFICULTY_POINTS (d : Difficulty) : Z :=
  match d with
  | easy => 10
  | medium => 20
  | hard => 30
  end%Z.

(** ** Arrays and randomness *)

(** A value returned by [Math.random()]: a binary64 number in the
    half-open unit interval.  Such a number is [m * 2^-(53 + s)] for a
    significand [m] below [2^53] and a shift [s] of at most 1021 (the
    subnormal numbers have [s = 1021]), and every number of that shape is
    one.  The fields are reduced into these ranges when they are read, so
    the contract of [Math.random] is carried by the type. *)
Record Sample := mkSample { mant : N; shift : N }.

Definition significand (r : Sample) : Z := (Z.of_N (mant r) mod 2 ^ 53)%Z.

Definition scale (r : Sample) : Z := (53 + Z.of_N (N.min (shift r) 1021))%Z.

(** Rounding a natural number to 53 significant bits, to nearest and
    ties to even: the [d] bits below the 53 leading ones are cut off, and
    the last bit kept is incremented when the part cut off is more than
    half a unit of it, or is half a unit and that bit is odd. *)
Definition round53 (M : Z) : Z :=
  (if M <? 2 ^ 53 then M
   else
     let d := Z.log2 M - 52 in
     let q := M / 2 ^ d in
     let rest := M mod 2 ^ d in
     let half := 2 ^ (d - 1) in
     let q' := if (half <? rest) || (rest =? half) && Z.odd q then q + 1 else q in
     q' * 2 ^ d)%Z.

(** [Math.floor(r * n)] for a sample [r] and a natural [n]: the product
    of the two binary64 numbers is rounded to binary64, then floored.
    With [r = m * 2^-s] the exact product is [(m * n) * 2^-s]; rounding it
    is rounding [m * n] (no product of a sample by an array index leaves
    the range of the normal or subnormal numbers).  Here [n] is [i + 1]
    for an index [i] of an array, a number below [2^32] and so a binary64
    number itself. *)
Definition floor_mul (r : Sample) (n : nat) : nat :=
  Z.to_nat (round53 (significand r * Z.of_nat n) / 2 ^ scale r)%Z.

(** The destructuring swap [[a[i], a[j]] = [a[j], a[i]]]: the right-hand
    side reads both cells, then cell [i] and cell [j] are written in that
    order.  Both indices are inside the array whenever [shuffle] performs
    the swap ([fisher_yates_plan_range], [swap_in_range]).  Outside the
    array, where the language would grow it, the model leaves the list
    alone; the case does not arise. *)
Definition swap {T} (a : list T) (i j : nat) : list T :=
  match a !! j, a !! i with
  | Some aj, Some ai => <[j := ai]> (<[i := aj]> a)
  | _, _ => a
  end.

Section Shuffle.
(** [Math_random k] is the value of the [k]-th call of [Math.random()]. *)
Variable Math_random : nat → Sample.
Context {T : Type}.

(** The body of [for (let i = a.length - 1; i > 0; i--)], entered with
    loop index [i] after [k] calls of [Math.random]; returns the array
    and the number of calls made. *)
Fixpoint shuffle_loop (i k : nat) (a : list T) : list T * nat :=
  match i with
  | 0 => (a, k)
  | S i' =>
      let j := floor_mul (Math_random k) (i + 1) in
      shuffle_loop i' (S k) (swap a i j)
  end.

(** [function shuffle<T>(arr: T[]): T[]]; the copy [[...arr]] is the
    list itself, lists being values. *)
Definition shuffle (arr : list T) (k : nat) : list T * nat :=
  shuffle_loop (length arr - 1) k arr.
End Shuffle.

(** ** JavaScript library functions used by the page *)

(** The outcome of evaluating an expression that may throw. *)
Inductive Try (A : Type) : Type :=
  | Returned (a : A)
  | Thrown.
Arguments Returned {A} a.
Arguments Thrown {A}.

#[global] Instance Try_ret : MRet Try := λ A a, Returned a.
#[global] Instance Try_bind : MBind Try := λ A B f m,
  match m with
  | Returned a => f a
  | Thrown => Thrown
  end.

(** [try { body } catch { handler }] *)
Definition try_catch {A} (body handler : Try A) : Try A :=
  match body with
  | Returned a => Returned a
  | Thrown => handler
  end.

(** A string of the running page: its UTF-16 code units, as the language
    has it.  What the player types, what the storage returns and what
    [toISOString] builds are such strings; the fixed texts of the page
    (notices, question texts, keys), which are never taken apart, stay
    literals. *)
Definition JSString : Type := list N.

(** The string of a literal written in ASCII: one code unit per
    character. *)
Fixpoint js (s : string) : JSString :=
  match s with
  | EmptyString => []
  | String c s' => N_of_ascii c :: js s'
  end.

(** White space and line terminators in the sense of
    [String.prototype.trim]: U+0009 to U+000D, U+0020, U+00A0, U+1680,
    U+2000 to U+200A, U+2028, U+2029, U+202F, U+205F, U+3000 and
    U+FEFF.  All of them are single code units. *)
Definition is_white_space (c : N) : bool :=
  ((9 <=? c) && (c <=? 13) || (c =? 32) || (c =? 160) || (c =? 5760)
   || (8192 <=? c) && (c <=? 8202) || (c =? 8232) || (c =? 8233)
   || (c =? 8239) || (c =? 8287) || (c =? 12288) || (c =? 65279))%N.

Fixpoint trimStart (s : JSString) : JSString :=
  match s with
  | [] => []
  | c :: s' => if is_white_space c then trimStart s' else s
  end.

Fixpoint trimEnd (s : JSString) : JSString :=
  match s with
  | [] => []
  | c :: s' =>
      match trimEnd s' with
      | [] => if is_white_space c then [] else [c]
      | kept => c :: kept
      end
  end.

(** [s.trim()] *)
Definition trim (s : JSString) : JSString := trimEnd (trimStart s).

(** Truthiness of a string: only the empty string is falsy. *)
Definition truthy_string (s : JSString) : bool :=
  match s with
  | [] => false
  | _ :: _ => true
  end.

(** [arr.findIndex(p)], with [-1] when no element satisfies [p]. *)
Fixpoint findIndex_from {A} (p : A → bool) (l : list A) (i : Z) : Z :=
  match l with
  | [] => (-1)%Z
  | x :: l' => if p x then i else findIndex_from p l' (i + 1)%Z
  end.

Definition findIndex {A} (p : A → bool) (l : list A) : Z := findIndex_from p l 0%Z.

(** [arr.sort(cmp)]: the language requires a stable sort, and with a
    consistent comparator every stable sort returns the same array;
    insertion from the right is one.  [x] goes in front of the first
    element it does not have to follow. *)
Fixpoint sort_insert {A} (cmp : A → A → Z) (x : A) (l : list A) : list A :=
  match l with
  | [] => [x]
  | y :: l' => if (cmp x y <=? 0)%Z then x :: l else y :: sort_insert cmp x l'
  end.

Definition sort {A} (cmp : A → A → Z) (l : list A) : list A :=
  foldr (sort_insert cmp) [] l.

(** ** The leaderboard store *)

Module ScoreEntry.
Record t := mk { name : JSString; score : Z; date : JSString }.
End ScoreEntry.
Abbreviation ScoreEntry := ScoreEntry.t.

(** A JSON value that cannot be iterated: [null], a boolean, a number or
    an object.  Numbers and objects are kept by their text; the page
    never looks inside them. *)
Inductive NotIterable :=
  | JNull
  | JBool (b : bool)
  | JNumber (literal : string)
  | JObject (literal : string).

(** A text kept in [localStorage], seen through [JSON.parse]: the
    serialisation of a [ScoreEntry[]] (with integer scores, as the page
    writes them); a text on which [JSON.parse] throws (kept verbatim; it
    may be empty); or the serialisation of a value that cannot be
    iterated.  The texts of JSON strings and of arrays holding anything
    but such entries are left out: on them the comparator of [next]
    returns NaN for some pairs and is then not a consistent comparator,
    and the language leaves the order [sort] returns to the engine. *)
Inductive StoredText :=
  | Json (list_ : list ScoreEntry)
  | NotJson (raw : JSString)
  | JsonOther (v : NotIterable).

(** What [JSON.parse] returns, and [readLeaderboard] with it: the return
    type [ScoreEntry[]] it declares is not checked when the page runs. *)
Inductive Parsed :=
  | Entries (list_ : list ScoreEntry)
  | Other (v : NotIterable).

Definition JSON_stringify (l : list ScoreEntry) : StoredText := Json l.

Definition JSON_parse (t : StoredText) : Try Parsed :=
  match t with
  | Json l => Returned (Entries l)
  | NotJson _ => Thrown
  | JsonOther v => Returned (Other v)
  end.

(** Truthiness of a stored text; no serialisation is the empty text. *)
Definition truthy_text (t : StoredText) : bool :=
  match t with
  | Json _ | JsonOther _ => true
  | NotJson s => truthy_string s
  end.

(** [window.localStorage]: the items by key, or storage the page may not
    touch, where every access throws. *)
Inductive Storage :=
  | Denied
  | Granted (items : gmap string StoredText).

Definition getItem (sto : Storage) (key : string) : Try (option StoredText) :=
  match sto with
  | Denied => Thrown
  | Granted items => Returned (items !! key)
  end.

Definition setItem (sto : Storage) (key : string) (value : StoredText) : Try Storage :=
  match sto with
  | Denied => Thrown
  | Granted items => Returned (Granted (<[key := value]> items))
  end.

Definition LB_KEY : string := "yfit_leaderboard".

Definition readLeaderboard (sto : Storage) : Try Parsed :=
  try_catch
    (raw ← getItem sto LB_KEY;
     match raw with
     | Some t => if truthy_text t then JSON_parse t else Returned (Entries [])
     | None => Returned (Entries [])
     end)
    (Returned (Entries [])).

Definition writeLeaderboard (list_ : list ScoreEntry) (sto : Storage) : Try Storage :=
  setItem sto LB_KEY (JSON_stringify list_).

(** [list.slice(0, n)]; a value that cannot be iterated has no method
    [slice] (or no property at all, for [null]), and the call throws. *)
Definition slice_to (n : nat) (list_ : Parsed) : Try (list ScoreEntry) :=
  match list_ with
  | Entries l => Returned (take n l)
  | Other _ => Thrown
  end.

(** The rows of [LeaderboardList]: [readLeaderboard()], then
    [list.slice(0, 10)]. *)
Definition LeaderboardList (sto : Storage) : Try (list ScoreEntry) :=
  list_ ← readLeaderboard sto;
  slice_to 10 list_.

(** An object reference: the address the object was allocated at and the
    record found there.  [===] on objects compares addresses. *)
Definition Ref : Type := nat * ScoreEntry.

Definition same_object (a b : Ref) : bool := bool_decide (a.1 = b.1).

(** The objects [JSON.parse] (or the literal [[]]) creates, allocated from
    address [base] on. *)
Definition allocate (base : nat) (l : list ScoreEntry) : list Ref :=
  imap (λ i e, (base + i, e)) l.

(** [(a, b) => b.score - a.score] *)
Definition by_score_desc (a b : Ref) : Z :=
  (ScoreEntry.score b.2 - ScoreEntry.score a.2)%Z.

(** ** The component state *)

Inductive Step := setup | playing | result.

#[global] Instance Step_eq_dec : EqDecision Step.
Proof. solve_decision. Defined.

(** The [useState] cells of [Game], and the value held by the [useMemo]
    cell [filtered]. *)
Record Game := mkGame {
  playerName : JSString;
  difficulty : Difficulty;
  soundOn : bool;
  step : Step;
  currentIdx : nat;
  score : Z;
  selected : option nat;
  questions : list Question;
  rank : option Z;
  filtered : list Question
}.

(** The page in its environment: the component, the storage of the
    origin, and the number of calls of [Math.random] made so far. *)
Record World := mkWorld {
  game : Game;
  localStorage : Storage;
  randomCalls : nat
}.

Inductive Sound := click | correct | wrong | levelUp.

(** What a handler lets out of the component. *)
Inductive Notice :=
  | Toast (title description : string)
  | Played (s : Sound)
  | Uncaught (error : string).

(** [sfx.s()]: [playTone] returns at once when sound is switched off. *)
Definition sfx (g : Game) (s : Sound) : list Notice :=
  if soundOn g then [Played s] else [].

Definition setPlayerName (v : JSString) (g : Game) : Game :=
  mkGame v (difficulty g) (soundOn g) (step g) (currentIdx g) (score g)
         (selected g) (questions g) (rank g) (filtered g).

Definition setDifficulty (v : Difficulty) (g : Game) : Game :=
  mkGame (playerName g) v (soundOn g) (step g) (currentIdx g) (score g)
         (selected g) (questions g) (rank g) (filtered g).

Definition setSoundOn (v : bool) (g : Game) : Game :=
  mkGame (playerName g) (difficulty g) v (step g) (currentIdx g) (score g)
         (selected g) (questions g) (rank g) (filtered g).

Definition setStep (v : Step) (g : Game) : Game :=
  mkGame (playerName g) (difficulty g) (soundOn g) v (currentIdx g) (score g)
         (selected g) (questions g) (rank g) (filtered g).

Definition setCurrentIdx (v : nat) (g : Game) : Game :=
  mkGame (playerName g) (difficulty g) (soundOn g) (step g) v (score g)
         (selected g) (questions g) (rank g) (filtered g).

Definition setScore (v : Z) (g : Game) : Game :=
  mkGame (playerName g) (difficulty g) (soundOn g) (step g) (currentIdx g) v
         (selected g) (questions g) (rank g) (filtered g).

Definition setSelected (v : option nat) (g : Game) : Game :=
  mkGame (playerName g) (difficulty g) (soundOn g) (step g) (currentIdx g) (score g)
         v (questions g) (rank g) (filtered g).

Definition setQuestions (v : list Question) (g : Game) : Game :=
  mkGame (playerName g) (difficulty g) (soundOn g) (step g) (currentIdx g) (score g)
         (selected g) v (rank g) (filtered g).

Definition setRank (v : option Z) (g : Game) : Game :=
  mkGame (playerName g) (difficulty g) (soundOn g) (step g) (currentIdx g) (score g)
         (selected g) (questions g) v (filtered g).

Definition setFiltered (v : list Question) (g : Game) : Game :=
  mkGame (playerName g) (difficulty g) (soundOn g) (step g) (currentIdx g) (score g)
         (selected g) (questions g) (rank g) v.

(** [const total = questions.length] and [const current = questions[currentIdx]] *)
Definition total (g : Game) : nat := length (questions g).
Definition current (g : Game) : option Question := questions g !! currentIdx g.

(** ** Event handlers that only touch the component *)

Definition handleStart (g : Game) : Game * list Notice :=
  if negb (truthy_string (trim (playerName g))) then
    (g, [Toast "Enter your name" "We’ll use it on the leaderboard."])
  else
    (setStep playing g, sfx g levelUp).

(** [handleOption]: with no current question the read of
    [current.answerIndex] throws after [setSelected] was queued. *)
Definition handleOption (index : nat) (g : Game) : Game * list Notice :=
  match selected g with
  | Some _ => (g, [])
  | None =>
      let g1 := setSelected (Some index) g in
      match current g with
      | None => (g1, [Uncaught "TypeError"])
      | Some cur =>
          if bool_decide (index = Question.answerIndex cur) then
            (setScore (score g + DIFFICULTY_POINTS (difficulty g))%Z g1,
             sfx g correct
               ++ [Toast "Correct!" (default "Great job!" (Question.explanation cur))])
          else
            (g1,
             sfx g wrong
               ++ [Toast "Not quite"
                     (default "You’ve got this next time." (Question.explanation cur))])
      end
  end.

Definition restart (g : Game) : Game * list Notice :=
  (setStep setup g, sfx g click).

(** ** Saving the score: the [else] branch of [next] *)

(** [[...lb, entry].sort((a, b) => b.score - a.score).slice(0, 20)] *)
Definition updated_of (lb : list Ref) (entry : Ref) : list Ref :=
  take 20 (sort by_score_desc (lb ++ [entry])).

(** [updated.findIndex(e => e === entry) + 1] *)
Definition newRank_of (updated : list Ref) (entry : Ref) : Z :=
  (findIndex (λ e, same_object e entry) updated + 1)%Z.

(** [newRank || null] *)
Definition or_null (n : Z) : option Z := if (n =? 0)%Z then None else Some n.

(** The elements the spread [[...lb, entry]] takes from [lb], as the
    objects [JSON.parse] allocated from address [base] on; spreading a
    value that cannot be iterated throws. *)
Definition spread (base : nat) (lb : Parsed) : Try (list Ref) :=
  match lb with
  | Entries l => Returned (allocate base l)
  | Other _ => Thrown
  end.

(** The leaderboard lines of [next], for the entry [e]: read, append,
    sort, cut, write, and look the entry up again.  The entry is the
    object at address 0, the objects of the parsed leaderboard are
    allocated after it.  [readLeaderboard] does not throw; the spread
    and [writeLeaderboard] can, and then nothing is written or
    returned. *)
Definition record (e : ScoreEntry) (sto : Storage) : Try (option Z * Storage) :=
  let entry : Ref := (0, e) in
  lb ← readLeaderboard sto;
  refs ← spread 1 lb;
  let updated := updated_of refs entry in
  sto' ← writeLeaderboard (updated.*2) sto;
  mret (or_null (newRank_of updated entry), sto').

(** The exception that escapes [next] when saving throws: the one of
    [setItem] in storage that is denied, and otherwise the [TypeError] of
    the spread. *)
Definition save_error (sto : Storage) : string :=
  match sto with
  | Denied => "DOMException"
  | Granted _ => "TypeError"
  end.

(** [next].  [now] is [new Date().toISOString()].  When saving throws,
    the handler stops before it has queued any update. *)
Definition next (now : JSString) (w : World) : World * list Notice :=
  let g := game w in
  if bool_decide (currentIdx g + 1 < total g) then
    (mkWorld (setSelected None (setCurrentIdx (currentIdx g + 1) g))
             (localStorage w) (randomCalls w),
     sfx g click)
  else
    match record (ScoreEntry.mk (trim (playerName g)) (score g) now) (localStorage w) with
    | Thrown => (w, sfx g click ++ [Uncaught (save_error (localStorage w))])
    | Returned (newRank, sto) =>
        (mkWorld (setStep result (setRank newRank g)) sto (randomCalls w),
         sfx g click ++ sfx g levelUp)
    end.

(** ** Rendering: the memoised batch and the reset effect *)

Section Engine.
(** [QUESTIONS], imported from [@/data/questions], and the oracle behind
    [Math.random]. *)
Variable QUESTIONS : list Question.
Variable Math_random : nat → Sample.

(** The Question Selector: filter by difficulty, shuffle, keep the first
    [n].  Returns the batch and the number of [Math.random] calls made. *)
Definition select (pool : list Question) (d : Difficulty) (n k : nat)
    : list Question * nat :=
  let pool' := filter (λ q, Question.difficulty q = d) pool in
  let '(a, k') := shuffle Math_random pool' k in
  (take n a, k').

(** The callback of [useMemo(..., [difficulty])]. *)
Definition filtered_memo (d : Difficulty) (k : nat) : list Question * nat :=
  select QUESTIONS d 10 k.

(** The older page filters by category as well and keeps five:
    [useMemo(..., [category, difficulty])]. *)
Definition select_scoped (pool : list Question) (c : Category) (d : Difficulty)
    (n k : nat) : list Question * nat :=
  let pool' :=
    filter (λ q, Question.category q = c ∧ Question.difficulty q = d) pool in
  let '(a, k') := shuffle Math_random pool' k in
  (take n a, k').

Definition filtered_memo_scoped (c : Category) (d : Difficulty) (k : nat)
    : list Question * nat :=
  select_scoped QUESTIONS c d 5 k.

(** The body of the effect when [step === "setup"]. *)
Definition reset (g : Game) : Game :=
  setRank None
    (setSelected None (setScore 0 (setCurrentIdx 0 (setQuestions (filtered g) g)))).

(** The render that follows a handler.  [prev] is the world the handler
    ran in, [w] the world after its updates.  The memo cell is recomputed
    when its dependency [difficulty] changed; the effect runs when one of
    its dependencies [filtered] (a new array exactly when recomputed) and
    [step] changed.  The updates of the effect change neither
    dependency, so the render after them does nothing more. *)
Definition render (prev w : World) : World :=
  let g := game w in
  let recomputed := negb (bool_decide (difficulty (game prev) = difficulty g)) in
  let '(g1, k1) :=
    if recomputed then
      let '(batch, k) := filtered_memo (difficulty g) (randomCalls w) in
      (setFiltered batch g, k)
    else (g, randomCalls w) in
  let effect := recomputed || negb (bool_decide (step (game prev) = step g)) in
  let g2 := if effect && bool_decide (step g1 = setup) then reset g1 else g1 in
  mkWorld g2 (localStorage w) k1.

(** The first render: the initial values of the state cells, the first
    computation of the memo cell, and the effect, which always runs
    after mounting. *)
Definition mount (sto : Storage) (k : nat) : World :=
  let '(batch, k') := filtered_memo easy k in
  mkWorld (reset (mkGame [] easy true setup 0 0 None [] None batch)) sto k'.

(** ** Events *)

Inductive Action :=
  | TypeName (v : JSString)
  | PickDifficulty (v : Difficulty)
  | ToggleSound
  | ClickStart
  | ClickOption (index : nat)
  | ClickNext (now : JSString)
  | ClickRestart
  | StorageChanged (sto : Storage).

(** Is the control of the action on the page?  The setup card, the
    question card and the result card are rendered for their step only,
    the question card only with a current question, and one button per
    option.  The sound button is always there; the storage can be changed
    from outside at any time.  ([disabled] on an answered question is not
    looked at: [handleOption] has its own guard.) *)
Definition rendered (a : Action) (g : Game) : bool :=
  match a with
  | TypeName _ | PickDifficulty _ | ClickStart => bool_decide (step g = setup)
  | ClickOption index =>
      bool_decide (step g = playing)
      && from_option (λ cur, bool_decide (index < length (Question.options cur)))
                     false (current g)
  | ClickNext _ => bool_decide (step g = playing) && bool_decide (is_Some (current g))
  | ClickRestart => bool_decide (step g = result)
  | ToggleSound | StorageChanged _ => true
  end.

Definition lift (h : Game → Game * list Notice) (w : World) : World * list Notice :=
  let '(g, out) := h (game w) in
  (mkWorld g (localStorage w) (randomCalls w), out).

Definition handler (a : Action) (w : World) : World * list Notice :=
  match a with
  | TypeName v => lift (λ g, (setPlayerName v g, [])) w
  | PickDifficulty v => lift (λ g, (setDifficulty v g, [])) w
  | ToggleSound => lift (λ g, (setSoundOn (negb (soundOn g)) g, [])) w
  | ClickStart => lift handleStart w
  | ClickOption index => lift (handleOption index) w
  | ClickNext now => next now w
  | ClickRestart => lift restart w
  | StorageChanged sto => (mkWorld (game w) sto (randomCalls w), [])
  end.

(** One event: the handler, then the render. *)
Definition dispatch (a : Action) (w : World) : World * list Notice :=
  if rendered a (game w) then
    let '(w', out) := handler a w in (render w w', out)
  else (w, []).

Definition after (a : Action) (w : World) : World := (dispatch a w).1.

Definition run (acts : list Action) (w : World) : World :=
  foldl (λ w a, after a w) w acts.

(** The worlds the page can be in. *)
Inductive reachable : World → Prop :=
  | reachable_mount sto k : reachable (mount sto k)
  | reachable_after a w : reachable w → reachable (after a w).

(** ** The submissions of a session, as seen on the page *)

(** The answer an event submits, if any, with the index of the question
    it is made on. *)
Definition submission (a : Action) (g : Game) : list (nat * nat) :=
  match a with
  | ClickOption index => if rendered a g then [(currentIdx g, index)] else []
  | _ => []
  end.

(** The answers submitted in the course of [acts]. *)
Fixpoint submissions (acts : list Action) (w : World) : list (nat * nat) :=
  match acts with
  | [] => []
  | a :: acts' => submission a (game w) ++ submissions acts' (after a w)
  end.
End Engine.

(** The first option submitted on question [qi]. *)
Fixpoint first_submission (h : list (nat * nat)) (qi : nat) : option nat :=
  match h with
  | [] => None
  | (q, index) :: h' => if bool_decide (q = qi) then Some index else first_submission h' qi
  end.

(** The number of questions of the batch whose first submitted option is
    the question's [answerIndex]; [qi] is the index of the head of [qs]. *)
Fixpoint correct_from (h : list (nat * nat)) (qi : nat) (qs : list Question) : nat :=
  match qs with
  | [] => 0
  | q :: qs' =>
      (if bool_decide (first_submission h qi = Some (Question.answerIndex q)) then 1 else 0)
      + correct_from h (S qi) qs'
  end.

Definition correct_count (qs : list Question) (h : list (nat * nat)) : nat :=
  correct_from h 0 qs.

(** ** The question bank inlined in the older page *)

Definition QUESTIONS_inline : list Question := [
  Question.mk "hivst-e-1" HIV_Self_Testing easy
    "What does HIV self-testing allow you to do?"
    ["Test yourself for HIV in private"; "Cure HIV at home";
     "Donate blood at home"; "Vaccinate against HIV"]
    0 (Some "HIV self-testing lets you test yourself discretely and privately.");
  Question.mk "hivst-m-1" HIV_Self_Testing medium
    "After a reactive (positive) self-test, what should you do next?"
    ["Start medication immediately without consultation";
     "Confirm with a facility-based test and seek care";
     "Ignore it if you feel healthy"; "Repeat the self-test every hour"]
    1 (Some "A reactive self-test should be confirmed at a clinic or lab before starting care.");
  Question.mk "hivst-h-1" HIV_Self_Testing hard
    "Which window period best describes oral-fluid HIV self-tests?"
    ["1–2 days"; "About 3 months"; "1 year"; "There is no window period"]
    1 (Some "Oral tests can take up to 3 months to detect antibodies after exposure.");
  Question.mk "prep-e-1" PrEP easy
    "What is PrEP primarily used for?"
    ["Preventing HIV"; "Treating flu"; "Lowering blood pressure"; "Curing HIV"]
    0 (Some "Pre-Exposure Prophylaxis (PrEP) greatly reduces the risk of getting HIV.");
  Question.mk "prep-m-1" PrEP medium
    "To be most effective, PrEP should be taken..."
    ["Only when you remember"; "As prescribed, consistently"; "Once per month";
     "Only after sex"]
    1 (Some "Consistency matters. Daily oral PrEP or per-event per provider guidance.");
  Question.mk "prep-h-1" PrEP hard
    "Which option is a long-acting form of PrEP available in some settings?"
    ["Cabotegravir injection"; "Vitamin C infusion"; "Herbal syrup";
     "Penicillin injection"]
    0 (Some "Long-acting cabotegravir injections are an approved PrEP option in some countries.");
  Question.mk "rh-e-1" Reproductive_Health easy
    "Which is a modern contraceptive method?"
    ["Condoms"; "Garlic"; "Cold showers"; "Skipping meals"]
    0 (Some "Condoms are a modern method and also help prevent STIs including HIV.");
  Question.mk "rh-m-1" Reproductive_Health medium
    "Which symptom warrants STI testing?"
    ["Unusual discharge"; "Hiccups"; "Dry skin"; "Sneezing"]
    0 (Some "Unusual discharge can signal an STI. Testing and treatment are important.");
  Question.mk "rh-h-1" Reproductive_Health hard
    "Emergency contraception is most effective when taken within..."
    ["120 hours"; "2 weeks"; "1 month"; "It has no time limit"]
    0 (Some "Most effective within 120 hours (5 days), earlier is better.")
].




(** Non-increasing order of scores, on entries and on references. *)
Definition score_ge (a b : ScoreEntry) : Prop := (ScoreEntry.score b ≤ ScoreEntry.score a)%Z.
Definition ref_score_ge (a b : Ref) : Prop := score_ge a.2 b.2.

#[global] Instance score_ge_dec a b : Decision (score_ge a b).
Proof. unfold score_ge. apply _. Defined.

#[global] Instance ref_score_ge_dec a b : Decision (ref_score_ge a b).
Proof. unfold ref_score_ge. apply _. Defined.

(** The number of entries of a leaderboard that score at least as much as
    the entry [e]. *)
Definition ahead_of (e : ScoreEntry) (lb : list ScoreEntry) : nat :=
  length (filter (λ x, score_ge x e) lb).

(** The leaderboard the page finds in a storage, if it finds one. *)
Definition stored (sto : Storage) : list ScoreEntry :=
  match readLeaderboard sto with
  | Returned (Entries lb) => lb
  | _ => []
  end.

(** What [readLeaderboard] returns is an array: the storage holds a
    serialised leaderboard, or nothing under the key, or a text that is
    not JSON, or it cannot be read at all. *)
Definition reads_array (sto : Storage) : Prop :=
  readLeaderboard sto = Returned (Entries (stored sto)).

(** A storage whose leaderboard item is the text [null]. *)
Definition null_storage : Storage := Granted {[ LB_KEY := JsonOther JNull ]}.

(** What holds of the component between two events. *)
Definition session_inv (g : Game) : Prop :=
  questions g = filtered g
  ∧ (step g = setup →
       currentIdx g = 0 ∧ score g = 0%Z ∧ selected g = None ∧ rank g = None)
  ∧ (step g = playing → rank g = None)
  ∧ (∀ r, rank g = Some r → (1 ≤ r ≤ 20)%Z).

(** The component right after a successful start. *)
Definition session_start (g : Game) : Prop :=
  step g = playing ∧ currentIdx g = 0 ∧ score g = 0%Z ∧ selected g = None.

(** What holds of a running or finished session with difficulty [d] and
    batch [qs] after the submissions [h]. *)
Definition scoring_inv (d : Difficulty) (qs : list Question) (h : list (nat * nat))
    (g : Game) : Prop :=
  step g ≠ setup
  ∧ difficulty g = d
  ∧ questions g = qs
  ∧ score g = (DIFFICULTY_POINTS d * Z.of_nat (correct_count qs h))%Z
  ∧ Forall (λ p, p.1 ≤ currentIdx g) h
  ∧ (step g = playing → (selected g = None ↔ first_submission h (currentIdx g) = None)).

(** A name that is empty or made of white space only. *)
Fixpoint blank (s : JSString) : bool :=
  match s with
  | [] => true
  | c :: s' => is_white_space c && blank s'
  end.

(** A fixed oracle and a fixed world for examples: the samples 0, 1/4,
    1/2 and 3/4 in turn, and the page mounted over the inline bank with
    an empty storage. *)
Definition sample_oracle (k : nat) : Sample :=
  mkSample (N.of_nat (k mod 4) * 2 ^ 51) 0.

Definition sample_world : World := mount QUESTIONS_inline sample_oracle (Granted ∅) 0.

(** A session on [sample_world]: the first question answered rightly, the
    second wrongly and then once more, the third not at all. *)
Definition sample_session : list Action :=
  [TypeName (js " Ada "); ClickStart; ClickOption 0;
   ClickNext (js "2025-01-01T10:00:00.000Z");
   ClickOption 1; ClickOption 0; ClickNext (js "2025-01-01T10:00:05.000Z");
   ClickNext (js "2025-01-01T10:00:09.000Z")].

Definition sample_finished : World :=
  run QUESTIONS_inline sample_oracle sample_session sample_world.

(** The same session stopped after its first answer. *)
Definition sample_answered : World :=
  run QUESTIONS_inline sample_oracle (take 3 sample_session) sample_world.

(** The same session right after [Start game], and before it. *)
Definition sample_started : World :=
  run QUESTIONS_inline sample_oracle (take 2 sample_session) sample_world.

Definition sample_named : World :=
  run QUESTIONS_inline sample_oracle (take 1 sample_session) sample_world.

(** A bank with two medium questions, and a session on it in which both
    are answered rightly. *)
Definition two_medium_bank : list Question := take 5 QUESTIONS_inline.

Definition two_medium_session : list Action :=
  [TypeName (js "Ada"); PickDifficulty medium; ClickStart;
   ClickOption 1; ClickNext (js "2025-01-01T10:00:00.000Z");
   ClickOption 1; ClickNext (js "2025-01-01T10:00:05.000Z")].

(** A storage whose leaderboard is full of entries scoring 40. *)
Definition full_board : list ScoreEntry :=
  replicate 20 (ScoreEntry.mk (js "Bea") 40 (js "2024-12-31T09:00:00.000Z")).

Definition full_storage : Storage := Granted {[ LB_KEY := Json full_board ]}.

(** Restart as a redraw: the session fields are back at their initial
    values and the batch is what the Question Selector returns when it is
    invoked at that moment, the calls of [Math.random] it makes included. *)
Definition restart_redraws (QUESTIONS : list Question) (Math_random : nat → Sample)
    (w : World) : Prop :=
  let w' := after QUESTIONS Math_random ClickRestart w in
  currentIdx (game w') = 0
  ∧ score (game w') = 0%Z
  ∧ selected (game w') = None
  ∧ (questions (game w'), randomCalls w')
    = filtered_memo QUESTIONS Math_random (difficulty (game w)) (randomCalls w).

(** ** The leaderboard list of the result card *)

(** One [<li>] of [LeaderboardList]: its React key [e.name + e.date],
    whether it carries the accent class ([e.name === highlightName]), the
    position shown ([idx + 1]), and the name and score shown. *)
Record Row := mkRow {
  key : JSString;
  highlighted : bool;
  place : nat;
  shown_name : JSString;
  shown_score : Z
}.

Definition LeaderboardList_rows (highlightName : JSString) (sto : Storage) : Try (list Row) :=
  list_ ← readLeaderboard sto;
  shown ← slice_to 10 list_;
  mret (imap (λ idx e,
          mkRow (ScoreEntry.name e ++ ScoreEntry.date e)
                (bool_decide (ScoreEntry.name e = highlightName))
                (idx + 1) (ScoreEntry.name e) (ScoreEntry.score e))
        shown).

(** The result card passes the player name as typed:
    [<LeaderboardList highlightName={playerName} />]. *)
Definition result_rows (w : World) : Try (list Row) :=
  LeaderboardList_rows (playerName (game w)) (localStorage w).

(** ** Page metadata: [usePageSEO] and the effect of the index page *)

(** An element, by its local name, its attributes and the text it
    contains; a document, by the elements of its head and of its body in
    document order. *)
Module Element.
Record t := mk { tagName : string; attributes : gmap string string; textContent : string }.
End Element.
Abbreviation Element := Element.t.

Module Document.
Record t := mk { head : list Element; body : list Element }.
End Document.
Abbreviation Document := Document.t.

Definition createElement (tag : string) : Element := Element.mk tag ∅ "".

Definition setAttribute (k v : string) (el : Element) : Element :=
  Element.mk (Element.tagName el) (<[k := v]> (Element.attributes el))
             (Element.textContent el).

(** Replacing the children of an element by one text. *)
Definition set_text (v : string) (el : Element) : Element :=
  Element.mk (Element.tagName el) (Element.attributes el) v.

(** Does the element match the selector [meta[name="..."]]? *)
Definition is_meta_named (name : string) (el : Element) : Prop :=
  Element.tagName el = "meta" ∧ Element.attributes el !! "name" = Some name.

#[global] Instance is_meta_named_dec name el : Decision (is_meta_named name el).
Proof. unfold is_meta_named. apply _. Defined.

Definition is_title (el : Element) : Prop := Element.tagName el = "title".

#[global] Instance is_title_dec el : Decision (is_title el).
Proof. unfold is_title. apply _. Defined.

(** The first element of the document, in document order, that satisfies
    [P], with the place it was found at. *)
Inductive Place := InHead (i : nat) | InBody (i : nat).

Definition first_element (P : Element → Prop) `{!∀ el, Decision (P el)}
    (doc : Document) : option (Place * Element) :=
  match list_find P (Document.head doc) with
  | Some (i, el) => Some (InHead i, el)
  | None =>
      match list_find P (Document.body doc) with
      | Some (i, el) => Some (InBody i, el)
      | None => None
      end
  end.

(** [document.querySelector(`meta[name="${name}"]`)] *)
Definition querySelector_meta (name : string) (doc : Document) : option (Place * Element) :=
  first_element (is_meta_named name) doc.

(** The document after the element at a place was changed into [el]. *)
Definition replace_at (p : Place) (el : Element) (doc : Document) : Document :=
  match p with
  | InHead i => Document.mk (<[i := el]> (Document.head doc)) (Document.body doc)
  | InBody i => Document.mk (Document.head doc) (<[i := el]> (Document.body doc))
  end.

(** [document.head.appendChild(el)] *)
Definition head_appendChild (el : Element) (doc : Document) : Document :=
  Document.mk (Document.head doc ++ [el]) (Document.body doc).

(** [document.title = value].  The title element of a document is its
    first [title] element; when there is none, one is created and
    appended to the head.  The children of the element are then replaced
    by the text given. *)
Definition set_document_title (value : string) (doc : Document) : Document :=
  match first_element is_title doc with
  | Some (p, el) => replace_at p (set_text value el) doc
  | None => head_appendChild (set_text value (createElement "title")) doc
  end.

(** ASCII white space: TAB, LF, FF, CR and SPACE. *)
Definition is_ascii_white_space (c : ascii) : bool :=
  match nat_of_ascii c with
  | 9 | 10 | 12 | 13 | 32 => true
  | _ => false
  end.

(** Stripping and collapsing ASCII white space: the runs at both ends go,
    every other run becomes one space.  [started] says that a character
    was kept already, [gap] that white space was met since. *)
Fixpoint collapse (started gap : bool) (s : string) : string :=
  match s with
  | EmptyString => EmptyString
  | String c s' =>
      if is_ascii_white_space c then collapse started started s'
      else
        let rest := String c (collapse true false s') in
        if gap then String " " rest else rest
  end.

Definition strip_and_collapse (s : string) : string := collapse false false s.

(** [document.title], read: the text of the title element, stripped and
    collapsed, or the empty string without a title element. *)
Definition document_title (doc : Document) : string :=
  match first_element is_title doc with
  | Some (_, el) => strip_and_collapse (Element.textContent el)
  | None => ""
  end.

(** The body of the effect, shared by [usePageSEO] and the index page:
    set the title, find or create and append the description tag, set its
    content. *)
Definition set_page_seo (title description : string) (doc : Document) : Document :=
  let doc := set_document_title title doc in
  let name := "description" in
  match querySelector_meta name doc with
  | Some (p, tag) => replace_at p (setAttribute "content" description tag) doc
  | None =>
      let tag := setAttribute "name" name (createElement "meta") in
      head_appendChild (setAttribute "content" description tag) doc
  end.

Definition usePageSEO (title description : string) (doc : Document) : Document :=
  set_page_seo title description doc.

(** The call in [Game] and the inline effect of [Index]. *)
Definition Game_seo : Document → Document :=
  usePageSEO
    "Health Quest — HIV, PrEP & Reproductive Health Trivia"
    "Health Quest: mixed-topic trivia on HIV self-testing, PrEP, and reproductive health. Pick a difficulty, learn fast, and climb the leaderboard.".

Definition Index_seo : Document → Document :=
  set_page_seo
    "Play HIV & PrEP Trivia | Learn While You Play"
    "Interactive trivia on HIV self-testing, PrEP, and reproductive health. Choose difficulty, earn points, and climb the leaderboard.".

(** The elements of a document in document order, its description tags
    and its title elements. *)
Definition elements (doc : Document) : list Element :=
  Document.head doc ++ Document.body doc.

Definition description_tags (doc : Document) : list Element :=
  filter (is_meta_named "description") (elements doc).

Definition title_elements (doc : Document) : list Element :=
  filter is_title (elements doc).

(** The element at a place. *)
Definition element_at (p : Place) (doc : Document) : option Element :=
  match p with
  | InHead i => Document.head doc !! i
  | InBody i => Document.body doc !! i
  end.

(** What both steps of the effect do: change the first element that
    satisfies [P] by [update], or, when there is none, append [fresh],
    changed the same way, to the head. *)
Definition find_or_append (P : Element → Prop) `{!∀ el, Decision (P el)}
    (update : Element → Element) (fresh : Element) (doc : Document) : Document :=
  match first_element P doc with
  | Some (p, el) => replace_at p (update el) doc
  | None => head_appendChild (update fresh) doc
  end.

(** The description part of the effect, on a document whose title is
    set. *)
Definition set_description (description : string) (doc : Document) : Document :=
  match querySelector_meta "description" doc with
  | Some (p, tag) => replace_at p (setAttribute "content" description tag) doc
  | None =>
      head_appendChild
        (setAttribute "content" description
           (setAttribute "name" "description" (createElement "meta"))) doc
  end.
(** ** More invariants of the page *)

(** What holds of the component between two events, besides
    [session_inv]: the index stays inside the batch, a session that has
    started has a player name, and the memoised batch is a selection from
    the bank for the difficulty picked. *)
Definition page_inv (QUESTIONS : list Question) (g : Game) : Prop :=
  (currentIdx g = 0 ∨ currentIdx g < total g)
  ∧ (step g ≠ setup → blank (playerName g) = false)
  ∧ filtered g ⊆+ QUESTIONS
  ∧ Forall (λ q, Question.difficulty q = difficulty g) (filtered g)
  ∧ length (filtered g) ≤ 10
  ∧ (NoDup (Question.id <$> QUESTIONS) → NoDup (Question.id <$> filtered g)).

(** An oracle that returns the samples of a list, one call after the
    other. *)
Definition oracle_of (samples : list Sample) (k : nat) : Sample :=
  default (mkSample 0 0) (samples !! k).

(** A world whose bank has no question at all, after a name was typed and
    [Start game] clicked. *)
Definition empty_bank_world : World :=
  run [] sample_oracle [TypeName (js "Ada"); ClickStart]
      (mount [] sample_oracle (Granted ∅) 0).

(** The sample session at its last question, in a page that may not touch
    the storage. *)
Definition sample_denied : World :=
  run QUESTIONS_inline sample_oracle
      [TypeName (js "Ada"); ClickStart; ClickNext (js "t1"); ClickNext (js "t2")]
      (mount QUESTIONS_inline sample_oracle Denied 0).

(** The sample session before its last click, on [Finish]. *)
Definition sample_last : World :=
  run QUESTIONS_inline sample_oracle (take 7 sample_session) sample_world.

(** A storage with a short sorted leaderboard, and one with a leaderboard
    out of order. *)
Definition short_board : list ScoreEntry :=
  [ScoreEntry.mk (js "Bea") 40 (js "2024-12-31T09:00:00.000Z");
   ScoreEntry.mk (js "Dan") 20 (js "2024-12-31T09:05:00.000Z")].

Definition short_storage : Storage := Granted {[ LB_KEY := Json short_board ]}.

(** * Properties *)

(** ** Randomness and swaps *)

Lemma significand_range r : (0 ≤ significand r < 2 ^ 53)%Z.
Proof. unfold significand. apply Z.mod_pos_bound. lia. Qed.

Lemma scale_range r : (53 ≤ scale r ≤ 1074)%Z.
Proof. unfold scale. lia. Qed.

(** What rounding does to a number of more than 53 bits. *)
Lemma round53_cases M :
  (0 ≤ M)%Z →
  (M < 2 ^ 53 ∧ round53 M = M)%Z
  ∨ ∃ d, (1 ≤ d ∧ 2 ^ 53 * 2 ^ (d - 1) ≤ M < 2 ^ 53 * 2 ^ d
          ∧ 2 ^ d = 2 * 2 ^ (d - 1)
          ∧ (round53 M = M / 2 ^ d * 2 ^ d
             ∨ round53 M = (M / 2 ^ d + 1) * 2 ^ d ∧ 2 ^ (d - 1) ≤ M mod 2 ^ d))%Z.
Proof.
  intros HM. unfold round53.
  destruct (Z.ltb_spec M (2 ^ 53)) as [Hlt|Hge]; [by left|right].
  assert (Hpos : (0 < M)%Z) by lia.
  pose proof (Z.log2_spec M Hpos) as [Hlo Hhi].
  assert (Hlog : (53 ≤ Z.log2 M)%Z).
  { apply Z.log2_le_pow2; lia. }
  exists (Z.log2 M - 52)%Z.
  set (d := (Z.log2 M - 52)%Z) in *.
  assert (Hd : (1 ≤ d)%Z) by (unfold d; lia).
  assert (E1 : (2 ^ Z.log2 M = 2 ^ 53 * 2 ^ (d - 1))%Z).
  { rewrite <- Z.pow_add_r by lia. f_equal. unfold d. lia. }
  assert (E2 : (2 ^ Z.succ (Z.log2 M) = 2 ^ 53 * 2 ^ d)%Z).
  { rewrite <- Z.pow_add_r by lia. f_equal. unfold d. lia. }
  assert (E3 : (2 ^ d = 2 * 2 ^ (d - 1))%Z).
  { replace d with (1 + (d - 1))%Z at 1 by lia. rewrite Z.pow_add_r by lia. done. }
  split_and!; try lia.
  cbv zeta.
  destruct ((2 ^ (d - 1) <? M mod 2 ^ d)%Z || (M mod 2 ^ d =? 2 ^ (d - 1))%Z && Z.odd (M / 2 ^ d))
    eqn:Hup; [right|by left].
  split; [done|].
  apply orb_prop in Hup as [Hup|Hup].
  - apply Z.ltb_lt in Hup. lia.
  - apply andb_prop in Hup as [Hup _]. apply Z.eqb_eq in Hup. lia.
Qed.

Lemma round53_nonneg M : (0 ≤ M)%Z → (0 ≤ round53 M)%Z.
Proof.
  intros HM. destruct (round53_cases M HM) as [[_ ->]|(d & Hd & _ & _ & [->| [-> _]])]; [done| |].
  - assert (0 < 2 ^ d)%Z by (apply Z.pow_pos_nonneg; lia).
    assert (0 ≤ M / 2 ^ d)%Z by (apply Z.div_pos; lia). nia.
  - assert (0 < 2 ^ d)%Z by (apply Z.pow_pos_nonneg; lia).
    assert (0 ≤ M / 2 ^ d)%Z by (apply Z.div_pos; lia). nia.
Qed.

(** Rounding moves a number by at most half a unit of the last bit kept,
    which is less than the number divided by [2^53]. *)
Lemma round53_near M :
  (0 ≤ M)%Z →
  ∃ A, (0 ≤ A ∧ 2 ^ 53 * A ≤ M ∧ M - 2 * A ≤ round53 M ≤ M + A
        ∧ (A = 0 → round53 M = M))%Z.
Proof.
  intros HM.
  destruct (round53_cases M HM) as [[_ ->]|(d & Hd & [Hlo Hhi] & E & Hr)].
  - exists 0%Z. lia.
  - exists (2 ^ (d - 1))%Z.
    assert (HA : (0 < 2 ^ (d - 1))%Z) by (apply Z.pow_pos_nonneg; lia).
    pose proof (Z.div_mod M (2 ^ d) ltac:(lia)) as Hdm.
    pose proof (Z.mod_pos_bound M (2 ^ d) ltac:(lia)) as Hmod.
    set (D := (2 ^ d)%Z) in *. set (q := (M / D)%Z) in *.
    set (A := (2 ^ (d - 1))%Z) in *.
    assert (Hup : ((q + 1) * D = q * D + D)%Z) by ring.
    assert (Hqd : (D * q = q * D)%Z) by ring.
    split_and!; lia.
Qed.

Lemma floor_mul_lt r n : 0 < n → floor_mul r n < n.
Proof.
  intros Hn. unfold floor_mul.
  pose proof (significand_range r) as Hm. pose proof (scale_range r) as Hs.
  set (M := (significand r * Z.of_nat n)%Z).
  assert (HM : (0 ≤ M)%Z) by (unfold M; nia).
  destruct (round53_near M HM) as (A & HA & HAM & [_ Hup] & _).
  pose proof (round53_nonneg M HM) as Hnn.
  assert (Hlt : (round53 M < 2 ^ 53 * Z.of_nat n)%Z) by (unfold M in *; nia).
  assert (Hpow : (2 ^ 53 ≤ 2 ^ scale r)%Z) by (apply Z.pow_le_mono_r; lia).
  assert (round53 M / 2 ^ scale r < Z.of_nat n)%Z.
  { apply Z.div_lt_upper_bound; [lia|]. nia. }
  assert (0 ≤ round53 M / 2 ^ scale r)%Z by (apply Z.div_pos; lia).
  lia.
Qed.


(** Every index below [n] is the draw of some sample, for the length of
    any array of the language. *)
Lemma floor_mul_onto n j :
  j < n → (Z.of_nat n ≤ 2 ^ 32)%Z →
  floor_mul (mkSample (Z.to_N ((Z.of_nat j * 2 ^ 53 + Z.of_nat n - 1) / Z.of_nat n)) 0) n = j.
Proof.
  intros Hj Hn.
  set (m := ((Z.of_nat j * 2 ^ 53 + Z.of_nat n - 1) / Z.of_nat n)%Z).
  assert (Hn0 : (0 < Z.of_nat n)%Z) by lia.
  pose proof (Z.div_mod (Z.of_nat j * 2 ^ 53 + Z.of_nat n - 1) (Z.of_nat n) ltac:(lia)) as Hdm.
  pose proof (Z.mod_pos_bound (Z.of_nat j * 2 ^ 53 + Z.of_nat n - 1) (Z.of_nat n) Hn0) as Hmod.
  fold m in Hdm.
  assert (Hm0 : (0 ≤ m)%Z) by (apply Z.div_pos; lia).
  assert (Hlo : (Z.of_nat j * 2 ^ 53 ≤ m * Z.of_nat n)%Z) by lia.
  assert (Hhi : (m * Z.of_nat n < Z.of_nat j * 2 ^ 53 + Z.of_nat n)%Z) by lia.
  assert (Hm : (m < 2 ^ 53)%Z) by nia.
  assert (Hsig : significand (mkSample (Z.to_N m) 0) = m).
  { unfold significand. simpl. rewrite Z2N.id by done. apply Z.mod_small. lia. }
  assert (Hsc : scale (mkSample (Z.to_N m) 0) = 53%Z) by done.
  unfold floor_mul. rewrite Hsig, Hsc.
  set (M := (m * Z.of_nat n)%Z) in *.
  assert (HM : (0 ≤ M)%Z) by (unfold M; nia).
  destruct (round53_near M HM) as (A & HA & HAM & [Hdown Hup] & Hzero).
  (* the rounded product stays in [j * 2^53, (j + 1) * 2^53) *)
  assert (HAn : (A < Z.of_nat n)%Z) by (unfold M in *; nia).
  assert (Hupper : (round53 M < (Z.of_nat j + 1) * 2 ^ 53)%Z) by lia.
  assert (Hlower : (Z.of_nat j * 2 ^ 53 ≤ round53 M)%Z).
  { destruct (round53_cases M HM) as [[_ ->]|(d & Hd & [Hl Hh] & E & Hr)]; [done|].
    assert (Hpd : (0 < 2 ^ (d - 1))%Z) by (apply Z.pow_pos_nonneg; lia).
    assert (Hd32 : (d ≤ 53)%Z).
    { destruct (Z.le_gt_cases d 53) as [|Hgt]; [done|exfalso].
      assert (2 ^ 53 ≤ 2 ^ (d - 1))%Z by (apply Z.pow_le_mono_r; lia).
      unfold M in *. nia. }
    assert (Hsplit : (2 ^ 53 = 2 ^ (53 - d) * 2 ^ d)%Z).
    { rewrite <- Z.pow_add_r by lia. f_equal. lia. }
    assert (Hfl : (Z.of_nat j * 2 ^ (53 - d) ≤ M / 2 ^ d)%Z).
    { apply Z.div_le_lower_bound; [lia|]. rewrite Hsplit in Hlo. unfold M. lia. }
    assert (0 < 2 ^ d)%Z by lia.
    destruct Hr as [->|[-> _]]; rewrite Hsplit; nia. }
  assert (Hq : (round53 M / 2 ^ 53 = Z.of_nat j)%Z).
  { symmetry. apply (Z.div_unique _ _ _ (round53 M - Z.of_nat j * 2 ^ 53)%Z); lia. }
  rewrite Hq. lia.
Qed.


(** The sample 0.6666666666666666 times 3 is 2 - 2^-53 exactly, which
    rounds to 2: the draw is 2, one more than the floor of the exact
    product. *)
Example floor_mul_rounds_up :
  floor_mul (mkSample 6004799503160661 0) 3 = 2
  ∧ Z.to_nat (6004799503160661 * 3 / 2 ^ 53)%Z = 1.
Proof. split; reflexivity. Qed.

Lemma insert_lookup_perm {T} (l : list T) j x y :
  l !! j = Some y → y :: <[j := x]> l ≡ₚ x :: l.
Proof.
  revert j. induction l as [|z l IH]; intros [|j] Hj; simplify_eq/=.
  - apply perm_swap.
  - rewrite (perm_swap z y). rewrite (IH _ Hj). apply perm_swap.
Qed.

Lemma swap_perm {T} (a : list T) i j : swap a i j ≡ₚ a.
Proof.
  unfold swap.
  destruct (a !! j) as [aj|] eqn:Hj; [|done].
  destruct (a !! i) as [ai|] eqn:Hi; [|done].
  revert i j Hi Hj. induction a as [|z a IH]; intros [|i] [|j] Hi Hj; simplify_eq/=.
  - done.
  - by apply insert_lookup_perm.
  - by apply insert_lookup_perm.
  - f_equiv. by apply IH.
Qed.

Lemma swap_length {T} (a : list T) i j : length (swap a i j) = length a.
Proof.
  unfold swap. destruct (a !! j), (a !! i); try done.
  by rewrite !length_insert.
Qed.



(** Inside the array the swap writes what the assignment writes. *)
Lemma swap_in_range {T} (a : list T) i j :
  i < length a → j < length a →
  ∃ ai aj, a !! i = Some ai ∧ a !! j = Some aj ∧ swap a i j = <[j := ai]> (<[i := aj]> a).
Proof.
  intros Hi Hj.
  destruct (lookup_lt_is_Some_2 a i Hi) as [ai Hai].
  destruct (lookup_lt_is_Some_2 a j Hj) as [aj Haj].
  exists ai, aj. unfold swap. by rewrite Hai, Haj.
Qed.

Section ShuffleFacts.
Variable Math_random : nat → Sample.
Context {T : Type}.
Implicit Types (a arr : list T) (i k : nat).

Lemma shuffle_loop_perm i k a : (shuffle_loop Math_random i k a).1 ≡ₚ a.
Proof.
  revert k a. induction i as [|i IH]; intros k a; simpl; [done|].
  rewrite IH. apply swap_perm.
Qed.

Lemma shuffle_loop_calls i k a : (shuffle_loop Math_random i k a).2 = k + i.
Proof.
  revert k a. induction i as [|i IH]; intros k a; simpl; [lia|].
  rewrite IH. lia.
Qed.

Lemma shuffle_perm arr k : (shuffle Math_random arr k).1 ≡ₚ arr.
Proof. apply shuffle_loop_perm. Qed.

Lemma shuffle_length arr k : length (shuffle Math_random arr k).1 = length arr.
Proof. by rewrite shuffle_perm. Qed.

Lemma shuffle_calls arr k : (shuffle Math_random arr k).2 = k + (length arr - 1).
Proof. apply shuffle_loop_calls. Qed.



End ShuffleFacts.

(** ** The Question Selector *)

Section SelectFacts.
Variable Math_random : nat → Sample.
Implicit Types (pool : list Question) (d : Difficulty) (n k : nat).

Lemma select_fst pool d n k :
  (select Math_random pool d n k).1
  = take n (shuffle Math_random (filter (λ q, Question.difficulty q = d) pool) k).1.
Proof. unfold select. by destruct (shuffle _ _ _). Qed.

Lemma select_snd pool d n k :
  (select Math_random pool d n k).2
  = k + (length (filter (λ q, Question.difficulty q = d) pool) - 1).
Proof.
  unfold select.
  pose proof (shuffle_calls Math_random (filter (λ q, Question.difficulty q = d) pool) k) as E.
  by destruct (shuffle _ _ _).
Qed.

Lemma select_scoped_fst pool c d n k :
  (select_scoped Math_random pool c d n k).1
  = take n (shuffle Math_random
      (filter (λ q, Question.category q = c ∧ Question.difficulty q = d) pool) k).1.
Proof. unfold select_scoped. by destruct (shuffle _ _ _). Qed.

Lemma take_shuffle_filter_props (P : Question → Prop) `{!∀ q, Decision (P q)} pool n k :
  let batch := take n (shuffle Math_random (filter P pool) k).1 in
  Forall P batch
  ∧ batch ⊆+ pool
  ∧ (NoDup (Question.id <$> pool) → NoDup (Question.id <$> batch))
  ∧ length batch = n `min` length (filter P pool).
Proof.
  intros batch.
  pose proof (shuffle_perm Math_random (filter P pool) k) as Hperm.
  assert (Hin : batch ⊆+ filter P pool).
  { rewrite <- Hperm. apply sublist_submseteq, sublist_take. }
  assert (Hsub : batch ⊆+ pool).
  { etrans; [exact Hin|]. apply sublist_submseteq, sublist_filter. }
  split_and!.
  - apply Forall_forall. intros q Hq.
    apply (elem_of_submseteq _ _ _ Hq) in Hin.
    by apply list_elem_of_filter in Hin as [? _].
  - done.
  - intros Hnd.
    assert (Hids : Question.id <$> batch ⊆+ Question.id <$> pool) by by f_equiv.
    apply submseteq_Permutation in Hids as [rest Hrest].
    rewrite Hrest in Hnd. by apply NoDup_app in Hnd as [? _].
  - unfold batch. by rewrite length_take, shuffle_length.
Qed.
End SelectFacts.

(** C5. For every pool, difficulty [d] and batch size [n], the batch that
    [select] returns holds only questions of difficulty [d], all of them
    taken from the pool, has no duplicate id when the pool has none, and is
    [min n m] long, where [m] is the number of questions of the pool with
    difficulty [d]; a pool with fewer than [n] matching questions gives a
    shorter batch, not an error. *)
Theorem select_filters_dedups_truncates
    (Math_random : nat → Sample) (pool : list Question) (d : Difficulty) (n k : nat) :
  let batch := (select Math_random pool d n k).1 in
  Forall (λ q, Question.difficulty q = d) batch
  ∧ batch ⊆+ pool
  ∧ (NoDup (Question.id <$> pool) → NoDup (Question.id <$> batch))
  ∧ length batch = n `min` length (filter (λ q, Question.difficulty q = d) pool).
Proof.
  cbv zeta. rewrite select_fst.
  apply (take_shuffle_filter_props Math_random (λ q, Question.difficulty q = d)).
Qed.

(** The same for the older page, where matching means matching category
    and difficulty. *)
Lemma select_scoped_filters_dedups_truncates
    (Math_random : nat → Sample) (pool : list Question) (c : Category) (d : Difficulty)
    (n k : nat) :
  let batch := (select_scoped Math_random pool c d n k).1 in
  Forall (λ q, Question.category q = c ∧ Question.difficulty q = d) batch
  ∧ batch ⊆+ pool
  ∧ (NoDup (Question.id <$> pool) → NoDup (Question.id <$> batch))
  ∧ length batch
    = n `min` length (filter (λ q, Question.category q = c ∧ Question.difficulty q = d) pool).
Proof.
  cbv zeta. rewrite select_scoped_fst.
  apply (take_shuffle_filter_props Math_random
           (λ q, Question.category q = c ∧ Question.difficulty q = d)).
Qed.


(** ** Reading the leaderboard *)

(** What [readLeaderboard] returns, by what the storage holds. *)
Lemma readLeaderboard_cases sto :
  reads_array sto
  ∨ ∃ items v, sto = Granted items ∧ items !! LB_KEY = Some (JsonOther v)
               ∧ readLeaderboard sto = Returned (Other v).
Proof.
  unfold reads_array, stored. destruct sto as [|items]; [by left|].
  unfold readLeaderboard; simpl.
  destruct (items !! LB_KEY) as [[lb|raw|v]|] eqn:Hitem; simpl.
  - by left.
  - left. by destruct (truthy_string raw).
  - right. by exists items, v.
  - by left.
Qed.

Lemma readLeaderboard_other items v :
  items !! LB_KEY = Some (JsonOther v) →
  readLeaderboard (Granted items) = Returned (Other v).
Proof. intros Hv. unfold readLeaderboard; simpl. by rewrite Hv. Qed.


(** C9. [readLeaderboard] itself never throws.  Storage that cannot be
    read, a missing item, and a text that is not JSON (empty or not) all
    give the empty list, and a serialised leaderboard gives its entries.
    A stored text that is JSON of another kind is not taken for
    corrupted: for [null], a boolean, a number or an object the function
    returns that value, not the empty list, although it declares to
    return an array.  Its callers then throw: the leaderboard list on
    [list.slice], and saving a score on the spread, before anything is
    written.  With the text [null] under the key this is what happens. *)
Theorem readLeaderboard_passes_on_what_parses (sto : Storage) :
  readLeaderboard sto ≠ Thrown
  ∧ (sto = Denied → readLeaderboard sto = Returned (Entries []))
  ∧ (∀ items, sto = Granted items → items !! LB_KEY = None →
       readLeaderboard sto = Returned (Entries []))
  ∧ (∀ items raw, sto = Granted items → items !! LB_KEY = Some (NotJson raw) →
       readLeaderboard sto = Returned (Entries []))
  ∧ (∀ items lb, sto = Granted items → items !! LB_KEY = Some (Json lb) →
       readLeaderboard sto = Returned (Entries lb))
  ∧ (∀ items v, sto = Granted items → items !! LB_KEY = Some (JsonOther v) →
       readLeaderboard sto = Returned (Other v)
       ∧ LeaderboardList sto = Thrown
       ∧ ∀ e, record e sto = Thrown)
  ∧ readLeaderboard null_storage = Returned (Other JNull)
  ∧ readLeaderboard null_storage ≠ Returned (Entries [])
  ∧ LeaderboardList null_storage = Thrown.
Proof.
  split_and!.
  - destruct (readLeaderboard_cases sto) as [->|(items & v & _ & _ & ->)]; done.
  - by intros ->.
  - intros items -> Hnone. unfold readLeaderboard; simpl. by rewrite Hnone.
  - intros items raw -> Hraw. unfold readLeaderboard; simpl. rewrite Hraw; simpl.
    by destruct (truthy_string raw).
  - intros items lb -> Hlb. unfold readLeaderboard; simpl. by rewrite Hlb.
  - intros items v -> Hv.
    pose proof (readLeaderboard_other items v Hv) as Hread. split_and!.
    + done.
    + unfold LeaderboardList. by rewrite Hread.
    + intros e. unfold record. by rewrite Hread.
  - reflexivity.
  - discriminate.
  - reflexivity.
Qed.

(** ** Starting a session *)

Lemma trimStart_blank s : trimStart s = [] ↔ blank s = true.
Proof.
  induction s as [|c s IH]; simpl; [done|].
  destruct (is_white_space c); simpl; [done|]. split; discriminate.
Qed.

Lemma trimStart_head s c s' : trimStart s = c :: s' → is_white_space c = false.
Proof.
  induction s as [|c0 s IH]; simpl; [discriminate|].
  destruct (is_white_space c0) eqn:Hc0; [done|]. by intros [= -> _].
Qed.

Lemma trimEnd_head c s : is_white_space c = false → trimEnd (c :: s) ≠ [].
Proof. intros Hc. simpl. destruct (trimEnd s); by rewrite ?Hc. Qed.

(** The trimmed name is empty exactly when the name is blank. *)
Lemma trim_blank s : trim s = [] ↔ blank s = true.
Proof.
  rewrite <- trimStart_blank. unfold trim.
  destruct (trimStart s) as [|c s'] eqn:E; [done|].
  split; [|discriminate].
  intros H. by apply trimEnd_head in H; [|eapply trimStart_head].
Qed.

Lemma truthy_string_empty s : truthy_string s = false ↔ s = [].
Proof. by destruct s. Qed.

Lemma world_eta w : mkWorld (game w) (localStorage w) (randomCalls w) = w.
Proof. by destruct w. Qed.

Lemma render_same Q R w : render Q R w w = w.
Proof.
  unfold render. rewrite !bool_decide_eq_true_2 by done. simpl. apply world_eta.
Qed.

(** C8. On the setup card, [Start game] with a blank player name (empty
    or white space only, that is, empty once trimmed) changes nothing and
    raises the notice asking for a name; with any other name the step
    becomes [playing] and nothing else in the world changes. *)
Theorem start_requires_name
    (QUESTIONS : list Question) (Math_random : nat → Sample) (w : World) :
  step (game w) = setup →
  (trim (playerName (game w)) = [] ↔ blank (playerName (game w)) = true)
  ∧ (blank (playerName (game w)) = true →
       dispatch QUESTIONS Math_random ClickStart w
       = (w, [Toast "Enter your name" "We’ll use it on the leaderboard."]))
  ∧ (blank (playerName (game w)) = false →
       (dispatch QUESTIONS Math_random ClickStart w).1
       = mkWorld (setStep playing (game w)) (localStorage w) (randomCalls w)
       ∧ step (game (dispatch QUESTIONS Math_random ClickStart w).1) = playing).
Proof.
  intros Hstep. split_and!.
  - apply trim_blank.
  - intros Hb. unfold dispatch, rendered. rewrite bool_decide_eq_true_2 by done.
    unfold handler, lift, handleStart.
    apply trim_blank in Hb. rewrite Hb. simpl. by rewrite world_eta, render_same.
  - intros Hb. unfold dispatch, rendered. rewrite bool_decide_eq_true_2 by done.
    unfold handler, lift, handleStart.
    destruct (truthy_string (trim (playerName (game w)))) eqn:Ht.
    + simpl. unfold render. simpl.
      rewrite bool_decide_eq_true_2 by done. rewrite Hstep. simpl. done.
    + apply truthy_string_empty, trim_blank in Ht. congruence.
Qed.

Lemma start_requires_name_witness :
  (step (game sample_world) = setup
   ∧ dispatch QUESTIONS_inline sample_oracle ClickStart sample_world
     = (sample_world, [Toast "Enter your name" "We’ll use it on the leaderboard."]))
  ∧ (step (game sample_named) = setup
     ∧ step (game (dispatch QUESTIONS_inline sample_oracle ClickStart sample_named).1)
       = playing).
Proof.
  split; (split; [reflexivity|]).
  - apply (start_requires_name QUESTIONS_inline sample_oracle sample_world); reflexivity.
  - apply (start_requires_name QUESTIONS_inline sample_oracle sample_named); reflexivity.
Defined.

(** ** Answering *)

(** C7. Once an option is selected for the current question, a further
    call of [handleOption], with any index, returns without queuing an
    update or raising a notice: the component, and with it the score and
    the selected option, and the whole world stay as they are. *)
Theorem handleOption_ignores_resubmission
    (QUESTIONS : list Question) (Math_random : nat → Sample) (w : World) (index : nat) :
  is_Some (selected (game w)) →
  handleOption index (game w) = (game w, [])
  ∧ dispatch QUESTIONS Math_random (ClickOption index) w = (w, []).
Proof.
  intros [chosen Hsel].
  assert (H : handleOption index (game w) = (game w, []))
    by (unfold handleOption; by rewrite Hsel).
  split; [done|].
  unfold dispatch. destruct (rendered _ _); [|done].
  unfold handler, lift. rewrite H. by rewrite world_eta, render_same.
Qed.

(** ** Sorting and looking up *)

#[global] Instance ref_score_ge_trans : Transitive ref_score_ge.
Proof. unfold ref_score_ge, score_ge. intros a b c. lia. Qed.

Lemma by_score_desc_le a b : (by_score_desc a b <=? 0)%Z = bool_decide (ref_score_ge a b).
Proof.
  unfold by_score_desc, ref_score_ge, score_ge.
  destruct (Z.leb_spec (ScoreEntry.score b.2 - ScoreEntry.score a.2) 0);
    [rewrite bool_decide_eq_true_2 | rewrite bool_decide_eq_false_2]; lia.
Qed.

Lemma sort_insert_perm {A} (cmp : A → A → Z) x l : sort_insert cmp x l ≡ₚ x :: l.
Proof.
  induction l as [|y l IH]; simpl; [done|].
  destruct (cmp x y <=? 0)%Z; [done|]. rewrite IH. apply perm_swap.
Qed.

Lemma sort_perm {A} (cmp : A → A → Z) l : sort cmp l ≡ₚ l.
Proof.
  induction l as [|x l IH]; simpl; [done|].
  by rewrite sort_insert_perm, IH.
Qed.






Lemma updated_of_length lb entry : length (updated_of lb entry) ≤ 20.
Proof. unfold updated_of. rewrite length_take. lia. Qed.

Lemma sort_insert_before {A} (cmp : A → A → Z) x l1 y l2 :
  (cmp x y <=? 0)%Z = true →
  sort_insert cmp x (l1 ++ y :: l2) = sort_insert cmp x l1 ++ y :: l2.
Proof.
  intros Hxy. induction l1 as [|z l1 IH]; simpl.
  - by rewrite Hxy.
  - destruct (cmp x z <=? 0)%Z; [done|]. by rewrite IH.
Qed.

Lemma sort_insert_after {A} (cmp : A → A → Z) x l1 y l2 :
  Forall (λ z, (cmp x z <=? 0)%Z = false) l1 → (cmp x y <=? 0)%Z = false →
  sort_insert cmp x (l1 ++ y :: l2) = l1 ++ y :: sort_insert cmp x l2.
Proof.
  intros Hl1 Hxy. induction Hl1 as [|z l1 Hz _ IH]; simpl.
  - by rewrite Hxy.
  - by rewrite Hz, IH.
Qed.

(** Sorting puts the appended entry right behind the references that score
    at least as much: the sort is stable and the entry came last. *)
Lemma sort_entry_position (refs : list Ref) (entry : Ref) :
  ∃ l1 l2, sort by_score_desc (refs ++ [entry]) = l1 ++ entry :: l2
           ∧ l1 ≡ₚ filter (λ z, ref_score_ge z entry) refs.
Proof.
  induction refs as [|x refs (l1 & l2 & Hsort & Hl1)]; simpl.
  - by exists [], [].
  - fold (sort by_score_desc (refs ++ [entry])). rewrite Hsort.
    destruct (decide (ref_score_ge x entry)) as [Hx|Hx].
    + rewrite sort_insert_before
        by (rewrite by_score_desc_le; by apply bool_decide_eq_true_2).
      exists (sort_insert by_score_desc x l1), l2. split; [done|].
      rewrite filter_cons_True by done. by rewrite sort_insert_perm, Hl1.
    + rewrite sort_insert_after.
      * exists l1, (sort_insert by_score_desc x l2). split; [done|].
        by rewrite filter_cons_False by done.
      * apply Forall_forall. intros z Hz. rewrite Hl1 in Hz.
        apply list_elem_of_filter in Hz as [Hz _].
        rewrite by_score_desc_le. apply bool_decide_eq_false_2.
        unfold ref_score_ge, score_ge in *. lia.
      * rewrite by_score_desc_le. by apply bool_decide_eq_false_2.
Qed.

Lemma findIndex_from_none {A} (p : A → bool) l i :
  Forall (λ z, p z = false) l → findIndex_from p l i = (-1)%Z.
Proof.
  intros Hl. revert i. induction Hl as [|z l Hz _ IH]; intros i; simpl; [done|].
  by rewrite Hz.
Qed.

Lemma findIndex_from_app {A} (p : A → bool) l1 x l2 i :
  Forall (λ z, p z = false) l1 → p x = true →
  findIndex_from p (l1 ++ x :: l2) i = (i + Z.of_nat (length l1))%Z.
Proof.
  intros Hl1 Hx. revert i. induction Hl1 as [|z l1 Hz _ IH]; intros i; simpl.
  - rewrite Hx. lia.
  - rewrite Hz, IH. lia.
Qed.

Lemma findIndex_from_bounds {A} (p : A → bool) l i :
  findIndex_from p l i = (-1)%Z
  ∨ (i ≤ findIndex_from p l i < i + Z.of_nat (length l))%Z.
Proof.
  revert i. induction l as [|x l IH]; intros i; simpl; [by left|].
  destruct (p x); [right; lia|].
  destruct (IH (i + 1)%Z) as [->|?]; [by left|right; lia].
Qed.

Lemma allocate_cons base x lb : allocate base (x :: lb) = (base, x) :: allocate (S base) lb.
Proof.
  unfold allocate. rewrite imap_cons. f_equal; [f_equal; lia|].
  apply imap_ext. intros i y _. simpl. f_equal. lia.
Qed.

Lemma allocate_snd base lb : (allocate base lb).*2 = lb.
Proof.
  revert base. induction lb as [|x lb IH]; intros base; [done|].
  rewrite allocate_cons. simpl. by rewrite IH.
Qed.

Lemma allocate_addr base lb : Forall (λ z, base ≤ z.1) (allocate base lb).
Proof.
  revert base. induction lb as [|x lb IH]; intros base; [constructor|].
  rewrite allocate_cons. constructor; [simpl; lia|].
  eapply Forall_impl; [apply IH|]. intros z Hz. simpl in *. lia.
Qed.

Lemma allocate_ahead base lb (entry : Ref) :
  length (filter (λ z, ref_score_ge z entry) (allocate base lb)) = ahead_of entry.2 lb.
Proof.
  unfold ahead_of. revert base. induction lb as [|x lb IH]; intros base; [done|].
  rewrite allocate_cons.
  destruct (decide (score_ge x entry.2)) as [Hx|Hx].
  - rewrite !filter_cons_True by done. simpl. by rewrite IH.
  - rewrite !filter_cons_False by done. apply IH.
Qed.

(** Where the entry ends up in [updated], and what [findIndex] returns. *)
Lemma updated_of_entry (lb : list ScoreEntry) (e : ScoreEntry) :
  let entry : Ref := (0, e) in
  let updated := updated_of (allocate 1 lb) entry in
  let ahead := ahead_of e lb in
  (ahead < 20 →
     updated !! ahead = Some entry
     ∧ Forall (λ z, z.1 ≠ 0) (take ahead updated)
     ∧ findIndex (λ z, same_object z entry) updated = Z.of_nat ahead)
  ∧ (20 ≤ ahead →
     Forall (λ z, z.1 ≠ 0) updated
     ∧ Forall (λ z, score_ge z.2 e) updated
     ∧ length updated = 20
     ∧ findIndex (λ z, same_object z entry) updated = (-1)%Z).
Proof.
  intros entry updated ahead.
  destruct (sort_entry_position (allocate 1 lb) entry) as (l1 & l2 & Hsort & Hl1).
  assert (Hlen : length l1 = ahead).
  { rewrite Hl1. apply (allocate_ahead 1 lb entry). }
  assert (Hfresh : Forall (λ z, z.1 ≠ 0) l1).
  { apply Forall_forall. intros z Hz. rewrite Hl1 in Hz.
    apply list_elem_of_filter in Hz as [_ Hz].
    pose proof (allocate_addr 1 lb) as Ha. rewrite Forall_forall in Ha.
    apply Ha in Hz. lia. }
  assert (Hge : Forall (λ z, score_ge z.2 e) l1).
  { apply Forall_forall. intros z Hz. rewrite Hl1 in Hz.
    by apply list_elem_of_filter in Hz as [Hz _]. }
  assert (Hother : Forall (λ z, same_object z entry = false) l1).
  { eapply Forall_impl; [exact Hfresh|]. intros z Hz.
    unfold same_object. by apply bool_decide_eq_false_2. }
  unfold updated, updated_of. rewrite Hsort. split.
  - intros Hlt.
    replace (take 20 (l1 ++ entry :: l2))
      with (l1 ++ entry :: take (20 - S (length l1)) l2).
    2:{ rewrite take_app. rewrite (take_ge l1) by lia. f_equal.
        replace (20 - length l1) with (S (20 - S (length l1))) by lia. done. }
    split_and!.
    + rewrite lookup_app_r by lia. by rewrite Hlen, Nat.sub_diag.
    + rewrite take_app_length' by done. done.
    + unfold findIndex. rewrite findIndex_from_app; [lia|done|].
      unfold same_object. by apply bool_decide_eq_true_2.
  - intros Hge20.
    rewrite take_app_le by lia.
    split_and!.
    + by apply Forall_take.
    + by apply Forall_take.
    + rewrite length_take. lia.
    + unfold findIndex. apply findIndex_from_none. by apply Forall_take.
Qed.

(** ** Recording a score *)

Lemma stored_written items lb : stored (Granted (<[LB_KEY := Json lb]> items)) = lb.
Proof.
  unfold stored, readLeaderboard; simpl. by rewrite lookup_insert_eq.
Qed.

Lemma reads_array_written items lb : reads_array (Granted (<[LB_KEY := Json lb]> items)).
Proof.
  unfold reads_array. rewrite stored_written.
  unfold readLeaderboard; simpl. by rewrite lookup_insert_eq.
Qed.

Lemma record_granted e items :
  reads_array (Granted items) →
  let updated := updated_of (allocate 1 (stored (Granted items))) (0, e) in
  record e (Granted items)
  = Returned (or_null (newRank_of updated (0, e)),
              Granted (<[LB_KEY := Json (updated.*2)]> items)).
Proof. intros Hread updated. unfold record. by rewrite Hread. Qed.

Lemma record_denied e : record e Denied = Thrown.
Proof. done. Qed.

Lemma record_other e items v :
  items !! LB_KEY = Some (JsonOther v) → record e (Granted items) = Thrown.
Proof. intros Hv. unfold record. by rewrite (readLeaderboard_other _ v). Qed.

(** Recording returns only in storage that can be written and from which
    an array is read. *)
Lemma record_returned e sto newRank sto' :
  record e sto = Returned (newRank, sto') →
  ∃ items, sto = Granted items ∧ reads_array sto.
Proof.
  intros Hrec. destruct sto as [|items]; [done|]. exists items. split; [done|].
  destruct (readLeaderboard_cases (Granted items)) as [|(items' & v & [= <-] & Hv & _)];
    [done|].
  by rewrite (record_other e items v) in Hrec.
Qed.


Lemma updated_of_submseteq refs entry : updated_of refs entry ⊆+ refs ++ [entry].
Proof.
  unfold updated_of. etrans; [apply sublist_submseteq, sublist_take|].
  by rewrite sort_perm.
Qed.





Lemma record_rank_range e sto newRank sto' r :
  record e sto = Returned (newRank, sto') → newRank = Some r → (1 ≤ r ≤ 20)%Z.
Proof.
  intros Hrec. destruct (record_returned _ _ _ _ Hrec) as (items & -> & Hread).
  revert Hrec.
  rewrite record_granted by done. intros [= <- _].
  set (updated := updated_of _ _).
  unfold or_null, newRank_of, findIndex.
  pose proof (updated_of_length (allocate 1 (stored (Granted items))) (0, e)) as Hlen.
  fold updated in Hlen.
  destruct (findIndex_from_bounds (λ z, same_object z (0, e)) updated 0) as [->|?];
    [done|].
  destruct (Z.eqb_spec (findIndex_from (λ z, same_object z (0, e)) updated 0 + 1) 0);
    [done|].
  intros [= <-]. lia.
Qed.

(** ** The session between events *)

Section Sessions.
Variable QUESTIONS : list Question.
Variable Math_random : nat → Sample.
Implicit Types (w : World) (g : Game) (a : Action).

Lemma reset_inv g : session_inv (reset g).
Proof. by repeat split. Qed.

Lemma mount_inv sto k : session_inv (game (mount QUESTIONS Math_random sto k)).
Proof.
  unfold mount. destruct (filtered_memo _ _ easy k) as [batch k']. apply reset_inv.
Qed.

Lemma lift_fst (h : Game → Game * list Notice) w :
  (lift h w).1 = mkWorld (h (game w)).1 (localStorage w) (randomCalls w).
Proof. unfold lift. by destruct (h (game w)). Qed.

Lemma after_rendered a w :
  rendered a (game w) = true →
  after QUESTIONS Math_random a w = render QUESTIONS Math_random w (handler a w).1.
Proof.
  intros Hr. unfold after, dispatch. rewrite Hr. by destruct (handler a w).
Qed.

Lemma after_not_rendered a w :
  rendered a (game w) = false → after QUESTIONS Math_random a w = w.
Proof. intros Hr. unfold after, dispatch. by rewrite Hr. Qed.

(** The component after a render, by what changed. *)
Lemma render_game prev w :
  game (render QUESTIONS Math_random prev w) =
    if bool_decide (difficulty (game prev) = difficulty (game w)) then
      if bool_decide (step (game prev) = step (game w)) then game w
      else if bool_decide (step (game w) = setup) then reset (game w) else game w
    else
      let g1 :=
        setFiltered
          (filtered_memo QUESTIONS Math_random (difficulty (game w)) (randomCalls w)).1
          (game w) in
      if bool_decide (step (game w) = setup) then reset g1 else g1.
Proof.
  unfold render.
  destruct (bool_decide (difficulty (game prev) = difficulty (game w))); simpl.
  - by destruct (bool_decide (step (game prev) = step (game w))),
      (bool_decide (step (game w) = setup)).
  - destruct (filtered_memo _ _ _ _) as [batch k]. simpl.
    by destruct (bool_decide (step (game w) = setup)).
Qed.

Lemma render_env prev w :
  localStorage (render QUESTIONS Math_random prev w) = localStorage w
  ∧ randomCalls (render QUESTIONS Math_random prev w) =
      if bool_decide (difficulty (game prev) = difficulty (game w)) then randomCalls w
      else (filtered_memo QUESTIONS Math_random (difficulty (game w)) (randomCalls w)).2.
Proof.
  unfold render.
  destruct (bool_decide (difficulty (game prev) = difficulty (game w))); simpl; [done|].
  by destruct (filtered_memo _ _ _ _) as [batch k].
Qed.

(** Handlers that leave difficulty and step alone are followed by a
    render that changes nothing. *)
Lemma render_quiet prev w :
  difficulty (game prev) = difficulty (game w) → step (game prev) = step (game w) →
  render QUESTIONS Math_random prev w = w.
Proof.
  intros Hd Hs. unfold render. rewrite !bool_decide_eq_true_2 by done. simpl.
  apply world_eta.
Qed.

Lemma next_game now w :
  (game (next now w).1 = setSelected None (setCurrentIdx (currentIdx (game w) + 1) (game w))
   ∧ currentIdx (game w) + 1 < total (game w)
   ∧ localStorage (next now w).1 = localStorage w)
  ∨ ((next now w).1 = w ∧ ¬ currentIdx (game w) + 1 < total (game w))
  ∨ (∃ newRank sto',
       record (ScoreEntry.mk (trim (playerName (game w))) (score (game w)) now)
              (localStorage w) = Returned (newRank, sto')
       ∧ ¬ currentIdx (game w) + 1 < total (game w)
       ∧ (next now w).1
         = mkWorld (setStep result (setRank newRank (game w))) sto' (randomCalls w)).
Proof.
  unfold next. case_bool_decide as Hlt; [by left|]. right.
  destruct (record _ _) as [[newRank sto']|] eqn:Hrec; [right|left]; eauto.
Qed.

Lemma next_randomCalls now w : randomCalls (next now w).1 = randomCalls w.
Proof.
  unfold next. case_bool_decide; [done|]. by destruct (record _ _) as [[? ?]|].
Qed.
Lemma handleOption_game index g :
  (handleOption index g).1 = g
  ∨ (selected g = None ∧ (handleOption index g).1 = setSelected (Some index) g)
  ∨ (selected g = None
     ∧ (∃ cur, current g = Some cur ∧ index = Question.answerIndex cur)
     ∧ (handleOption index g).1
       = setScore (score g + DIFFICULTY_POINTS (difficulty g))%Z
                  (setSelected (Some index) g)).
Proof.
  unfold handleOption. destruct (selected g) eqn:Hsel; [by left|]. right.
  destruct (current g) as [cur|] eqn:Hcur; [|by left].
  case_bool_decide; [right|left]; eauto.
Qed.

Ltac inv_split Hinv :=
  destruct Hinv as (Hq & Hsetup & Hplaying & Hrank);
  split_and!; simpl in *; intros; simplify_eq/=; eauto; try done.

Lemma after_inv a w :
  session_inv (game w) → session_inv (game (after QUESTIONS Math_random a w)).
Proof.
  intros Hinv.
  destruct (rendered a (game w)) eqn:Hr; [|by rewrite after_not_rendered].
  rewrite after_rendered by done. rewrite render_game.
  destruct a as [v|v| | |index|now| |sto]; simpl in Hr; simpl handler.
  - rewrite lift_fst; simpl. rewrite !bool_decide_eq_true_2 by done. inv_split Hinv.
  - rewrite lift_fst; simpl. apply bool_decide_eq_true in Hr.
    case_bool_decide; [|rewrite bool_decide_eq_true_2 by done; apply reset_inv].
    rewrite !bool_decide_eq_true_2 by done. inv_split Hinv.
  - rewrite lift_fst; simpl. rewrite !bool_decide_eq_true_2 by done. inv_split Hinv.
  - rewrite lift_fst; simpl. apply bool_decide_eq_true in Hr.
    unfold handleStart. destruct (truthy_string _); simpl.
    + rewrite bool_decide_eq_true_2 by done. rewrite Hr.
      rewrite !bool_decide_eq_false_2 by done.
      destruct Hinv as (Hq & Hsetup & Hplaying & Hrank).
      destruct (Hsetup Hr) as (_ & _ & _ & Hnone).
      split_and!; simpl; try done; intros; congruence.
    + by rewrite !bool_decide_eq_true_2 by done.
  - rewrite lift_fst; simpl. apply andb_prop in Hr as [Hr _].
    apply bool_decide_eq_true in Hr.
    destruct (handleOption_game index (game w)) as [->|[[_ ->]|(_ & _ & ->)]]; simpl;
      rewrite !bool_decide_eq_true_2 by done; [done| |]; inv_split Hinv; congruence.
  - apply andb_prop in Hr as [Hr _]. apply bool_decide_eq_true in Hr.
    destruct (next_game now w) as [(-> & _ & _)|[[-> _]|(newRank & sto' & Hrec & _ & ->)]];
      simpl.
    + rewrite !bool_decide_eq_true_2 by done. inv_split Hinv; congruence.
    + by rewrite !bool_decide_eq_true_2 by done.
    + rewrite bool_decide_eq_true_2 by done. rewrite Hr.
      rewrite !bool_decide_eq_false_2 by done.
      destruct Hinv as (Hq & Hsetup & Hplaying & Hrank).
      split_and!; simpl; try done.
      intros r ->. eapply record_rank_range; eauto.
  - rewrite lift_fst; simpl. apply bool_decide_eq_true in Hr.
    rewrite bool_decide_eq_true_2 by done. rewrite Hr.
    rewrite bool_decide_eq_false_2 by done. apply reset_inv.
  - simpl. by rewrite !bool_decide_eq_true_2 by done.
Qed.

Lemma reachable_inv w : reachable QUESTIONS Math_random w → session_inv (game w).
Proof.
  induction 1 as [sto k|a w _ IH]; [apply mount_inv|by apply after_inv].
Qed.

Lemma reachable_run acts w :
  reachable QUESTIONS Math_random w →
  reachable QUESTIONS Math_random (run QUESTIONS Math_random acts w).
Proof.
  revert w. induction acts as [|a acts IH]; intros w Hw; [done|].
  simpl. apply IH. by constructor.
Qed.
Lemma restart_game w :
  step (game w) = result →
  after QUESTIONS Math_random ClickRestart w
  = mkWorld (reset (setStep setup (game w))) (localStorage w) (randomCalls w).
Proof.
  intros Hstep. rewrite after_rendered by (simpl; by apply bool_decide_eq_true_2).
  simpl handler. rewrite lift_fst. simpl.
  unfold render. simpl. rewrite bool_decide_eq_true_2 by done. rewrite Hstep. done.
Qed.

Lemma pick_difficulty_game v w :
  step (game w) = setup → v ≠ difficulty (game w) →
  after QUESTIONS Math_random (PickDifficulty v) w
  = mkWorld
      (reset (setFiltered (filtered_memo QUESTIONS Math_random v (randomCalls w)).1
                          (setDifficulty v (game w))))
      (localStorage w)
      (filtered_memo QUESTIONS Math_random v (randomCalls w)).2.
Proof.
  intros Hstep Hv. rewrite after_rendered by (simpl; by apply bool_decide_eq_true_2).
  simpl handler. rewrite lift_fst. simpl.
  unfold render. simpl. rewrite bool_decide_eq_false_2 by done. simpl.
  destruct (filtered_memo _ _ _ _) as [batch k]. simpl.
  by rewrite bool_decide_eq_true_2 by done.
Qed.
End Sessions.

(** ** Restart *)

Lemma sample_finished_reachable :
  reachable QUESTIONS_inline sample_oracle sample_finished.
Proof. apply reachable_run, reachable_mount. Qed.

(** C1, as stated, fails: after the sample session a redraw would make
    two more calls of [Math.random] and put the questions in another
    order, but restart makes no call and keeps the batch. *)
Lemma restart_does_not_redraw :
  ¬ (∀ QUESTIONS Math_random w,
       reachable QUESTIONS Math_random w → step (game w) = result →
       restart_redraws QUESTIONS Math_random w).
Proof.
  intros H.
  destruct (H QUESTIONS_inline sample_oracle sample_finished
              sample_finished_reachable eq_refl) as (_ & _ & _ & Hbatch).
  vm_compute in Hbatch. discriminate Hbatch.
Qed.

(** C1, amended. Restart from the result step leads to the setup step
    with [currentIdx], [score], [selected] and [rank] back at 0, 0, none
    and none.  The Question Selector is not invoked: no call of
    [Math.random] is made, the memoised batch is kept, and the new session
    gets the questions of the finished one in the same order.  A fresh
    batch is drawn, filtered and shuffled anew, when the difficulty is
    then changed on the setup card. *)
Theorem restart_resets_and_keeps_batch
    (QUESTIONS : list Question) (Math_random : nat → Sample) (w : World) :
  reachable QUESTIONS Math_random w → step (game w) = result →
  let w' := after QUESTIONS Math_random ClickRestart w in
  step (game w') = setup
  ∧ currentIdx (game w') = 0
  ∧ score (game w') = 0%Z
  ∧ selected (game w') = None
  ∧ rank (game w') = None
  ∧ questions (game w') = questions (game w)
  ∧ filtered (game w') = filtered (game w)
  ∧ randomCalls w' = randomCalls w
  ∧ difficulty (game w') = difficulty (game w)
  ∧ playerName (game w') = playerName (game w)
  ∧ localStorage w' = localStorage w
  ∧ (∀ v, v ≠ difficulty (game w') →
       let w'' := after QUESTIONS Math_random (PickDifficulty v) w' in
       (questions (game w''), randomCalls w'')
       = filtered_memo QUESTIONS Math_random v (randomCalls w')).
Proof.
  intros Hreach Hstep w'.
  assert (Hw' : w' = mkWorld (reset (setStep setup (game w))) (localStorage w) (randomCalls w))
    by by apply restart_game.
  destruct (reachable_inv _ _ _ Hreach) as (Hq & _).
  rewrite Hw'. simpl. split_and!; try done.
  intros v Hv. rewrite pick_difficulty_game by done. simpl.
  by destruct (filtered_memo _ _ _ _).
Qed.

Lemma restart_resets_and_keeps_batch_witness :
  questions (game (after QUESTIONS_inline sample_oracle ClickRestart sample_finished))
  = questions (game sample_finished)
  ∧ randomCalls (after QUESTIONS_inline sample_oracle ClickRestart sample_finished)
    = randomCalls sample_finished.
Proof.
  pose proof (restart_resets_and_keeps_batch QUESTIONS_inline sample_oracle sample_finished
                sample_finished_reachable eq_refl) as H.
  split; apply H.
Defined.

(** ** The retained rank *)

(** C10. In every world the page can reach, [rank] is none unless the
    step is [result], and a rank that is present lies between 1 and 20.
    Whenever an event leaves the page in the setup step (restart
    included), [rank] is none and [currentIdx], [score] and [selected] are
    at their initial values.  When [Finish] ends the session, the rank
    retained is the one recording returned: a position in the sequence cut
    to 20, or none. *)
Theorem rank_none_unless_result
    (QUESTIONS : list Question) (Math_random : nat → Sample) (w : World) :
  reachable QUESTIONS Math_random w →
  (step (game w) ≠ result → rank (game w) = None)
  ∧ (∀ r, rank (game w) = Some r → step (game w) = result ∧ (1 ≤ r ≤ 20)%Z)
  ∧ (∀ a, let w' := after QUESTIONS Math_random a w in
          step (game w') = setup →
          rank (game w') = None ∧ currentIdx (game w') = 0
          ∧ score (game w') = 0%Z ∧ selected (game w') = None)
  ∧ (∀ now, let w' := after QUESTIONS Math_random (ClickNext now) w in
            step (game w) = playing → step (game w') = result →
            ∃ sto', record (ScoreEntry.mk (trim (playerName (game w))) (score (game w)) now)
                           (localStorage w) = Returned (rank (game w'), sto')
                    ∧ localStorage w' = sto'
                    ∧ (rank (game w') = None
                       ∨ ∃ r, rank (game w') = Some r ∧ (1 ≤ r ≤ 20)%Z)).
Proof.
  intros Hreach.
  pose proof (reachable_inv _ _ _ Hreach) as (Hq & Hsetup & Hplaying & Hrank).
  assert (Hnone : step (game w) ≠ result → rank (game w) = None).
  { intros Hstep. destruct (step (game w)) eqn:E; [by apply Hsetup|by apply Hplaying|done]. }
  split_and!.
  - done.
  - intros r Hr. split; [|by apply Hrank].
    destruct (decide (step (game w) = result)) as [|Hne]; [done|].
    apply Hnone in Hne. congruence.
  - intros a w' Hstep.
    assert (Hinv : session_inv (game w'))
      by (apply reachable_inv with QUESTIONS Math_random; by constructor).
    destruct Hinv as (_ & Hs & _). by destruct (Hs Hstep) as (? & ? & ? & ?).
  - intros now w' Hplay Hres.
    destruct (rendered (ClickNext now) (game w)) eqn:Hr.
    2:{ unfold w' in Hres. rewrite after_not_rendered in Hres by done. congruence. }
    assert (Hw' : w' = render QUESTIONS Math_random w (next now w).1)
      by (unfold w'; by rewrite after_rendered).
    destruct (next_game now w) as [(Hg & _ & _)|[[Hsame _]|(newRank & sto' & Hrec & _ & Hnext)]].
    + exfalso. rewrite Hw', render_game, Hg in Hres. simpl in Hres.
      rewrite !bool_decide_eq_true_2 in Hres by done. simpl in Hres. congruence.
    + exfalso. rewrite Hw', Hsame, render_same in Hres. congruence.
    + assert (Hgame : game w' = setStep result (setRank newRank (game w))).
      { rewrite Hw', render_game, Hnext. simpl.
        rewrite bool_decide_eq_true_2 by done. rewrite Hplay.
        by rewrite !bool_decide_eq_false_2 by done. }
      exists sto'. rewrite Hgame. simpl. split_and!.
      * done.
      * rewrite Hw'. rewrite (proj1 (render_env _ _ _ _)). by rewrite Hnext.
      * destruct newRank as [r|]; [right|by left].
        exists r. split; [done|]. by eapply record_rank_range.
Qed.

Lemma rank_none_unless_result_witness :
  step (game sample_finished) = result
  ∧ rank (game sample_finished) = Some 1%Z
  ∧ rank (game (after QUESTIONS_inline sample_oracle ClickRestart sample_finished)) = None.
Proof.
  pose proof (rank_none_unless_result QUESTIONS_inline sample_oracle sample_finished
                sample_finished_reachable) as (_ & Hsome & Hsetup & _).
  split_and!.
  - apply (Hsome 1%Z). reflexivity.
  - reflexivity.
  - apply (Hsetup ClickRestart). reflexivity.
Defined.

(** ** Scoring *)

Lemma first_submission_app h p qi :
  first_submission (h ++ [p]) qi
  = match first_submission h qi with
    | Some index => Some index
    | None => if bool_decide (p.1 = qi) then Some p.2 else None
    end.
Proof.
  induction h as [|[q index] h IH]; simpl.
  - by destruct p.
  - by destruct (bool_decide (q = qi)).
Qed.

Lemma first_submission_beyond h qi :
  Forall (λ p, p.1 < qi) h → first_submission h qi = None.
Proof.
  induction 1 as [|[q index] h Hq _ IH]; simpl; [done|].
  simpl in Hq. rewrite bool_decide_eq_false_2 by lia. done.
Qed.

Lemma correct_from_nil qi qs : correct_from [] qi qs = 0.
Proof. revert qi. induction qs as [|q qs IH]; intros qi; simpl; [done|]. by rewrite IH. Qed.

(** A repeated submission changes no count. *)
Lemma correct_from_repeat h idx index qi qs :
  is_Some (first_submission h idx) →
  correct_from (h ++ [(idx, index)]) qi qs = correct_from h qi qs.
Proof.
  intros [first Hfirst]. revert qi. induction qs as [|q qs IH]; intros qi; simpl; [done|].
  rewrite IH. f_equal. rewrite first_submission_app. simpl.
  destruct (first_submission h qi) eqn:E; [done|].
  rewrite (bool_decide_eq_false_2 (idx = qi)); [done|]. intros ->. congruence.
Qed.

(** A first submission on question [idx] counts when it is the answer. *)
Lemma correct_from_first h idx index qi qs :
  first_submission h idx = None →
  correct_from (h ++ [(idx, index)]) qi qs
  = correct_from h qi qs
    + (if decide (qi ≤ idx) then
         from_option (λ cur, if bool_decide (index = Question.answerIndex cur) then 1 else 0)
                     0 (qs !! (idx - qi))
       else 0).
Proof.
  intros Hnone. revert qi. induction qs as [|q qs IH]; intros qi; simpl.
  - by case_decide.
  - rewrite IH. rewrite first_submission_app. simpl.
    destruct (decide (qi = idx)) as [->|Hne].
    + rewrite Hnone. rewrite (bool_decide_eq_true_2 (idx = idx)) by done.
      rewrite Nat.sub_diag. simpl.
      rewrite (decide_True (P := idx ≤ idx)) by done.
      rewrite (decide_False (P := S idx ≤ idx)) by lia.
      assert (Hiff : bool_decide (Some index = Some (Question.answerIndex q))
                     = bool_decide (index = Question.answerIndex q)).
      { apply bool_decide_ext. split; [by intros [= ->]|by intros ->]. }
      rewrite Hiff. destruct (bool_decide (index = Question.answerIndex q)); lia.
    + assert (Hhead : match first_submission h qi with
                      | Some i => Some i
                      | None => if bool_decide (idx = qi) then Some index else None
                      end = first_submission h qi).
      { destruct (first_submission h qi); [done|].
        by rewrite (bool_decide_eq_false_2 (idx = qi)). }
      rewrite Hhead.
      destruct (decide (qi ≤ idx)) as [Hle|Hgt].
      * rewrite (decide_True (P := S qi ≤ idx)) by lia.
        replace (idx - qi) with (S (idx - S qi)) by lia. simpl. lia.
      * rewrite (decide_False (P := S qi ≤ idx)) by lia. lia.
Qed.

Lemma DIFFICULTY_POINTS_pos d : (0 < DIFFICULTY_POINTS d)%Z.
Proof. by destruct d. Qed.

Section Scoring.
Variable QUESTIONS : list Question.
Variable Math_random : nat → Sample.
Implicit Types (w : World) (g : Game) (a : Action) (h : list (nat * nat)).

Lemma session_start_inv g :
  session_start g → scoring_inv (difficulty g) (questions g) [] g.
Proof.
  intros (Hstep & Hidx & Hscore & Hsel). unfold scoring_inv, correct_count.
  rewrite correct_from_nil, Hstep, Hscore. split_and!; try done. lia.
Qed.

(** One event of a session keeps the account and never lowers the score. *)
Lemma scoring_step d qs h a w :
  scoring_inv d qs h (game w) → a ≠ ClickRestart →
  scoring_inv d qs (h ++ submission a (game w)) (game (after QUESTIONS Math_random a w))
  ∧ (score (game w) ≤ score (game (after QUESTIONS Math_random a w)))%Z.
Proof.
  intros (Hstep & Hd & Hq & Hscore & Hh & Hsel) Ha.
  destruct (rendered a (game w)) eqn:Hr.
  2:{ rewrite after_not_rendered by done.
      assert (submission a (game w) = []) as ->
        by (destruct a; simpl in *; try done; by rewrite Hr).
      rewrite app_nil_r. split; [by unfold scoring_inv|lia]. }
  rewrite after_rendered by done. rewrite render_game.
  destruct a as [v|v| | |index|now| |sto]; simpl in Hr; simpl handler;
    try (by apply bool_decide_eq_true in Hr); try done.
  - rewrite lift_fst; simpl. rewrite !bool_decide_eq_true_2 by done. simpl.
    rewrite app_nil_r. split; [by unfold scoring_inv|lia].
  - rewrite lift_fst. simpl submission. rewrite Hr.
    apply andb_prop in Hr as [Hplay Hcur]. apply bool_decide_eq_true in Hplay.
    destruct (current (game w)) as [cur|] eqn:Ecur; [|done]. clear Hcur.
    assert (Hlook : qs !! currentIdx (game w) = Some cur) by (by rewrite <- Hq).
    unfold handleOption. rewrite Ecur.
    destruct (selected (game w)) as [chosen|] eqn:Esel; simpl.
    + rewrite !bool_decide_eq_true_2 by done.
      assert (Hsome : is_Some (first_submission h (currentIdx (game w)))).
      { destruct (first_submission h (currentIdx (game w))) eqn:E; [by eexists|].
        discriminate (proj2 (Hsel Hplay) eq_refl). }
      split; [|lia]. unfold scoring_inv, correct_count.
      rewrite correct_from_repeat by done. split_and!; try done.
      * apply Forall_app; split; [done|]. by constructor.
      * intros _. rewrite first_submission_app. destruct Hsome as [? ->].
        rewrite Esel. split; discriminate.
    + assert (Hnone : first_submission h (currentIdx (game w)) = None) by by apply Hsel.
      assert (Hcount : correct_count qs (h ++ [(currentIdx (game w), index)])
                       = correct_count qs h
                         + (if bool_decide (index = Question.answerIndex cur) then 1 else 0)).
      { unfold correct_count. rewrite correct_from_first by done.
        rewrite decide_True by lia. by rewrite Nat.sub_0_r, Hlook. }
      pose proof (DIFFICULTY_POINTS_pos d) as Hpos.
      case_bool_decide as Hans; simpl; rewrite !bool_decide_eq_true_2 by done.
      * split; [|simpl; rewrite Hd; lia].
        unfold scoring_inv. simpl. rewrite Hcount. split_and!; try done.
        -- rewrite Hscore, Hd, Nat2Z.inj_add. nia.
        -- apply Forall_app; split; [done|]. by constructor.
        -- intros _. rewrite first_submission_app, Hnone. simpl.
           rewrite bool_decide_eq_true_2 by done. split; discriminate.
      * split; [|simpl; lia].
        unfold scoring_inv. simpl. rewrite Hcount. split_and!; try done.
        -- rewrite Hscore, Nat.add_0_r. done.
        -- apply Forall_app; split; [done|]. by constructor.
        -- intros _. rewrite first_submission_app, Hnone. simpl.
           rewrite bool_decide_eq_true_2 by done. split; discriminate.
  - simpl submission. rewrite app_nil_r.
    apply andb_prop in Hr as [Hplay _]. apply bool_decide_eq_true in Hplay.
    destruct (next_game now w) as [(-> & _ & _)|[[-> _]|(newRank & sto' & _ & _ & ->)]];
      simpl.
    + rewrite !bool_decide_eq_true_2 by done. split; [|simpl; lia].
      unfold scoring_inv. simpl. split_and!; try done.
      * eapply Forall_impl; [exact Hh|]. intros p Hp. simpl in *. lia.
      * intros _. split; [intros _|done].
        apply first_submission_beyond.
        eapply Forall_impl; [exact Hh|]. intros p Hp. simpl in *. lia.
    + rewrite !bool_decide_eq_true_2 by done. split; [by unfold scoring_inv|lia].
    + rewrite bool_decide_eq_true_2 by done. rewrite Hplay.
      rewrite !bool_decide_eq_false_2 by done. split; [|simpl; lia].
      unfold scoring_inv. simpl. split_and!; try done.
  - simpl. rewrite !bool_decide_eq_true_2 by done. rewrite app_nil_r.
    split; [by unfold scoring_inv|lia].
Qed.

Lemma scoring_run d qs acts : ∀ h w,
  scoring_inv d qs h (game w) → Forall (λ a, a ≠ ClickRestart) acts →
  scoring_inv d qs (h ++ submissions QUESTIONS Math_random acts w)
              (game (run QUESTIONS Math_random acts w)).
Proof.
  induction acts as [|a acts IH]; intros h w Hinv Hacts; simpl.
  - by rewrite app_nil_r.
  - apply Forall_cons in Hacts as [Ha Hacts].
    rewrite app_assoc. apply IH; [|done]. by apply scoring_step.
Qed.
End Scoring.

(** C2. From the start of a session on, and as long as it is not
    restarted, the score after any sequence of events is the points of the
    session's difficulty (easy 10, medium 20, hard 30) times the number of
    questions of the batch whose first submitted option was the question's
    [answerIndex]; no event of the session lowers it, so a wrong answer
    neither adds nor subtracts. *)
Theorem score_counts_first_correct_answers
    (QUESTIONS : list Question) (Math_random : nat → Sample) (w0 : World)
    (acts : list Action) :
  session_start (game w0) → Forall (λ a, a ≠ ClickRestart) acts →
  let d := difficulty (game w0) in
  let w := run QUESTIONS Math_random acts w0 in
  score (game w)
  = (DIFFICULTY_POINTS d
     * Z.of_nat (correct_count (questions (game w0))
                               (submissions QUESTIONS Math_random acts w0)))%Z
  ∧ DIFFICULTY_POINTS d = match d with easy => 10 | medium => 20 | hard => 30 end%Z
  ∧ (∀ a, a ≠ ClickRestart →
          (score (game w) ≤ score (game (after QUESTIONS Math_random a w)))%Z).
Proof.
  intros Hstart Hacts d w.
  pose proof (scoring_run QUESTIONS Math_random d (questions (game w0)) acts [] w0
                (session_start_inv _ Hstart) Hacts) as Hinv.
  simpl in Hinv. split_and!.
  - by destruct Hinv as (_ & _ & _ & Hscore & _).
  - by destruct d.
  - intros a Ha. by eapply scoring_step.
Qed.

Lemma score_counts_first_correct_answers_witness :
  session_start (game sample_started)
  ∧ Forall (λ a, a ≠ ClickRestart) (drop 2 sample_session)
  ∧ score (game (run QUESTIONS_inline sample_oracle (drop 2 sample_session) sample_started))
    = 10%Z.
Proof.
  assert (Hstart : session_start (game sample_started)) by (repeat split).
  assert (Hacts : Forall (λ a, a ≠ ClickRestart) (drop 2 sample_session))
    by (repeat constructor; discriminate).
  split_and!; [done|done|].
  rewrite (proj1 (score_counts_first_correct_answers QUESTIONS_inline sample_oracle
                    sample_started (drop 2 sample_session) Hstart Hacts)).
  vm_compute. reflexivity.
Defined.

Lemma handleOption_ignores_resubmission_witness :
  is_Some (selected (game sample_answered))
  ∧ dispatch QUESTIONS_inline sample_oracle (ClickOption 2) sample_answered
    = (sample_answered, []).
Proof.
  assert (H : is_Some (selected (game sample_answered))) by (exists 0; reflexivity).
  split; [exact H|].
  apply (handleOption_ignores_resubmission QUESTIONS_inline sample_oracle
           sample_answered 2 H).
Defined.

(** A successful start from a reachable setup step begins a session. *)
Lemma start_begins_session
    (QUESTIONS : list Question) (Math_random : nat → Sample) (w : World) :
  reachable QUESTIONS Math_random w → step (game w) = setup →
  blank (playerName (game w)) = false →
  session_start (game (after QUESTIONS Math_random ClickStart w))
  ∧ questions (game (after QUESTIONS Math_random ClickStart w)) = filtered (game w)
  ∧ difficulty (game (after QUESTIONS Math_random ClickStart w)) = difficulty (game w).
Proof.
  intros Hreach Hstep Hname.
  destruct (reachable_inv _ _ _ Hreach) as (Hq & Hsetup & _).
  destruct (Hsetup Hstep) as (Hidx & Hscore & Hsel & _).
  assert (Hgame : game (after QUESTIONS Math_random ClickStart w) = setStep playing (game w)).
  { rewrite after_rendered by (simpl; by apply bool_decide_eq_true_2).
    rewrite render_game. simpl handler. rewrite lift_fst. unfold handleStart.
    destruct (truthy_string (trim (playerName (game w)))) eqn:Ht.
    - simpl. rewrite bool_decide_eq_true_2 by done. rewrite Hstep.
      by rewrite !bool_decide_eq_false_2 by done.
    - apply truthy_string_empty, trim_blank in Ht. congruence. }
  rewrite Hgame. by repeat split.
Qed.

(** ** The end-to-end scenarios *)

(** Three easy questions in the pool and a batch size of five: the batch
    is those three, in the order the oracle gives. *)
Example scenario_short_pool :
  Question.id <$> (select sample_oracle QUESTIONS_inline easy 5 0).1
  = ["prep-e-1"; "rh-e-1"; "hivst-e-1"].
Proof. reflexivity. Qed.

(** Medium difficulty, a batch of two, both answered rightly, an empty
    leaderboard: 40 points and rank 1. *)
Example scenario_two_medium :
  let w := run two_medium_bank sample_oracle two_medium_session
               (mount two_medium_bank sample_oracle (Granted ∅) 0) in
  step (game w) = result
  ∧ length (questions (game w)) = 2
  ∧ score (game w) = 40%Z
  ∧ rank (game w) = Some 1%Z
  ∧ stored (localStorage w)
    = [ScoreEntry.mk (js "Ada") 40 (js "2025-01-01T10:00:05.000Z")].
Proof. vm_compute. by repeat split. Qed.

(** A full leaderboard of entries scoring 40 and a new entry scoring 10:
    no rank, and the leaderboard is as before. *)
Example scenario_full_board :
  ∃ sto', record (ScoreEntry.mk (js "Cy") 10 (js "2025-01-01T10:00:00.000Z")) full_storage
          = Returned (None, sto')
          ∧ stored sto' = full_board.
Proof. eexists. split; reflexivity. Qed.

(** * Further properties of the page *)

(** ** The batch and the index between events *)

Section Page.
Variable QUESTIONS : list Question.
Variable Math_random : nat → Sample.
Implicit Types (w : World) (g : Game) (a : Action).

Lemma filtered_memo_props d k :
  let batch := (filtered_memo QUESTIONS Math_random d k).1 in
  batch ⊆+ QUESTIONS
  ∧ Forall (λ q, Question.difficulty q = d) batch
  ∧ length batch ≤ 10
  ∧ (NoDup (Question.id <$> QUESTIONS) → NoDup (Question.id <$> batch)).
Proof.
  cbv zeta. unfold filtered_memo. rewrite select_fst.
  destruct (take_shuffle_filter_props Math_random (λ q, Question.difficulty q = d)
              QUESTIONS 10 k) as (Hd & Hsub & Hnd & Hlen).
  split_and!; try done. rewrite Hlen. lia.
Qed.

Lemma reset_page_inv g :
  step g = setup →
  filtered g ⊆+ QUESTIONS →
  Forall (λ q, Question.difficulty q = difficulty g) (filtered g) →
  length (filtered g) ≤ 10 →
  (NoDup (Question.id <$> QUESTIONS) → NoDup (Question.id <$> filtered g)) →
  page_inv QUESTIONS (reset g).
Proof. intros Hstep ????. unfold page_inv. simpl. split_and!; try done. by left. Qed.

Lemma mount_page_inv sto k : page_inv QUESTIONS (game (mount QUESTIONS Math_random sto k)).
Proof.
  unfold mount.
  pose proof (filtered_memo_props easy k) as (? & ? & ? & ?).
  destruct (filtered_memo _ _ easy k) as [batch k']. simpl in *.
  by apply reset_page_inv.
Qed.

Ltac page_split Hinv :=
  destruct Hinv as (Hidx & Hname & Hsub & Hdiff & Hlen & Hnd);
  unfold page_inv; split_and!; simpl in *; try done.

Lemma after_page_inv a w :
  page_inv QUESTIONS (game w) → page_inv QUESTIONS (game (after QUESTIONS Math_random a w)).
Proof.
  intros Hinv.
  destruct (rendered a (game w)) eqn:Hr; [|by rewrite after_not_rendered].
  rewrite after_rendered by done. rewrite render_game.
  destruct a as [v|v| | |index|now| |sto]; simpl in Hr; simpl handler.
  - rewrite lift_fst; simpl. rewrite !bool_decide_eq_true_2 by done.
    apply bool_decide_eq_true in Hr. page_split Hinv.
  - rewrite lift_fst; simpl. apply bool_decide_eq_true in Hr.
    case_bool_decide as Hv.
    + rewrite !bool_decide_eq_true_2 by done. subst v. page_split Hinv.
    + rewrite bool_decide_eq_true_2 by done.
      pose proof (filtered_memo_props v (randomCalls w)) as (? & ? & ? & ?).
      by apply reset_page_inv.
  - rewrite lift_fst; simpl. rewrite !bool_decide_eq_true_2 by done. page_split Hinv.
  - rewrite lift_fst; simpl. apply bool_decide_eq_true in Hr.
    unfold handleStart. destruct (truthy_string _) eqn:Ht; simpl.
    + rewrite bool_decide_eq_true_2 by done. rewrite Hr.
      rewrite !bool_decide_eq_false_2 by done.
      page_split Hinv. intros _.
      destruct (blank (playerName (game w))) eqn:Hb; [|done].
      apply trim_blank in Hb. rewrite Hb in Ht. done.
    + by rewrite !bool_decide_eq_true_2 by done.
  - rewrite lift_fst; simpl.
    destruct (handleOption_game index (game w)) as [->|[[_ ->]|(_ & _ & ->)]]; simpl;
      rewrite !bool_decide_eq_true_2 by done; [done| |]; page_split Hinv.
  - apply andb_prop in Hr as [Hr _]. apply bool_decide_eq_true in Hr.
    destruct (next_game now w) as [(-> & Hlt & _)|[[-> _]|(newRank & sto' & _ & _ & ->)]];
      simpl.
    + rewrite !bool_decide_eq_true_2 by done. page_split Hinv. by right.
    + by rewrite !bool_decide_eq_true_2 by done.
    + rewrite bool_decide_eq_true_2 by done. rewrite Hr.
      rewrite !bool_decide_eq_false_2 by done. page_split Hinv.
      intros _. apply Hname. by rewrite Hr.
  - rewrite lift_fst; simpl. apply bool_decide_eq_true in Hr.
    rewrite bool_decide_eq_true_2 by done. rewrite Hr.
    rewrite bool_decide_eq_false_2 by done.
    destruct Hinv as (_ & _ & ? & ? & ? & ?). by apply reset_page_inv.
  - simpl. by rewrite !bool_decide_eq_true_2 by done.
Qed.

Lemma reachable_page_inv w :
  reachable QUESTIONS Math_random w → page_inv QUESTIONS (game w).
Proof.
  induction 1 as [sto k|a w _ IH]; [apply mount_page_inv|by apply after_page_inv].
Qed.

(** What an event does to the difficulty, the memoised batch and the
    calls of [Math.random]: nothing, unless it picks another difficulty on
    the setup card. *)
Lemma after_frame a w :
  (difficulty (game (after QUESTIONS Math_random a w)) = difficulty (game w)
   ∧ filtered (game (after QUESTIONS Math_random a w)) = filtered (game w)
   ∧ randomCalls (after QUESTIONS Math_random a w) = randomCalls w)
  ∨ (∃ v, a = PickDifficulty v ∧ step (game w) = setup ∧ v ≠ difficulty (game w)).
Proof.
  destruct (rendered a (game w)) eqn:Hr; [|left; by rewrite after_not_rendered].
  destruct a as [v|v| | |index|now| |sto]; simpl in Hr.
  2:{ apply bool_decide_eq_true in Hr.
      destruct (decide (v = difficulty (game w))) as [->|Hv]; [|right; by exists v].
      left. rewrite after_rendered by (simpl; by apply bool_decide_eq_true_2).
      simpl handler. rewrite lift_fst.
      rewrite render_game, (proj2 (render_env _ _ _ _)). simpl.
      by rewrite !bool_decide_eq_true_2 by done. }
  all: left; rewrite after_rendered by done;
    rewrite render_game, (proj2 (render_env _ _ _ _)); simpl handler.
  - rewrite lift_fst. simpl. by rewrite !bool_decide_eq_true_2 by done.
  - rewrite lift_fst. simpl. by rewrite !bool_decide_eq_true_2 by done.
  - rewrite lift_fst. simpl. unfold handleStart.
    destruct (truthy_string _); simpl; rewrite bool_decide_eq_true_2 by done;
      by repeat case_bool_decide.
  - rewrite lift_fst. simpl.
    destruct (handleOption_game index (game w)) as [->|[[_ ->]|(_ & _ & ->)]]; simpl;
      by rewrite !bool_decide_eq_true_2 by done.
  - rewrite next_randomCalls.
    destruct (next_game now w) as [(-> & _ & _)|[[-> _]|(newRank & sto' & _ & _ & ->)]];
      simpl; rewrite bool_decide_eq_true_2 by done; by repeat case_bool_decide.
  - rewrite lift_fst. simpl. rewrite bool_decide_eq_true_2 by done.
    by repeat case_bool_decide.
  - simpl. by rewrite !bool_decide_eq_true_2 by done.
Qed.
End Page.

Lemma sample_last_reachable : reachable QUESTIONS_inline sample_oracle sample_last.
Proof. apply reachable_run, reachable_mount. Qed.

(** X1. The batch in play is always a selection from the bank: at most ten
    questions, each of the difficulty picked, each from the bank and no
    more often than there, with distinct ids when the bank has distinct
    ids. *)
Theorem reachable_batch_from_bank
    (QUESTIONS : list Question) (Math_random : nat → Sample) (w : World) :
  reachable QUESTIONS Math_random w →
  questions (game w) ⊆+ QUESTIONS
  ∧ Forall (λ q, Question.difficulty q = difficulty (game w)) (questions (game w))
  ∧ total (game w) ≤ 10
  ∧ (NoDup (Question.id <$> QUESTIONS) → NoDup (Question.id <$> questions (game w))).
Proof.
  intros Hreach.
  destruct (reachable_inv _ _ _ Hreach) as (Hq & _).
  destruct (reachable_page_inv _ _ _ Hreach) as (_ & _ & Hsub & Hdiff & Hlen & Hnd).
  unfold total. rewrite Hq. by split_and!.
Qed.

Lemma reachable_batch_from_bank_witness :
  total (game sample_finished) ≤ 10
  ∧ Forall (λ q, Question.difficulty q = easy) (questions (game sample_finished)).
Proof.
  pose proof (reachable_batch_from_bank QUESTIONS_inline sample_oracle sample_finished
                sample_finished_reachable) as (_ & Hdiff & Hlen & _).
  split; [exact Hlen|exact Hdiff].
Defined.

(** X2. The only event that changes the batch, the difficulty or the
    number of [Math.random] calls is picking another difficulty on the
    setup card, and then the batch is a fresh draw; nothing is drawn or
    reshuffled while a session is played or shown. *)
Theorem batch_changes_only_on_pick
    (QUESTIONS : list Question) (Math_random : nat → Sample) (w : World) (a : Action) :
  reachable QUESTIONS Math_random w →
  let w' := after QUESTIONS Math_random a w in
  (questions (game w') = questions (game w)
   ∧ difficulty (game w') = difficulty (game w)
   ∧ randomCalls w' = randomCalls w)
  ∨ (∃ v, a = PickDifficulty v ∧ step (game w) = setup ∧ v ≠ difficulty (game w)
          ∧ difficulty (game w') = v
          ∧ (questions (game w'), randomCalls w')
            = filtered_memo QUESTIONS Math_random v (randomCalls w)).
Proof.
  intros Hreach w'.
  destruct (after_frame QUESTIONS Math_random a w) as [(Hd & Hf & Hk)|(v & -> & Hstep & Hv)].
  - left. split_and!; try done.
    destruct (reachable_inv _ _ _ Hreach) as (-> & _).
    assert (Hreach' : reachable QUESTIONS Math_random w') by by constructor.
    destruct (reachable_inv _ _ _ Hreach') as (-> & _). done.
  - right. exists v. split_and!; try done.
    + unfold w'. by rewrite pick_difficulty_game.
    + unfold w'. rewrite pick_difficulty_game by done. simpl.
      by destruct (filtered_memo _ _ _ _).
Qed.

Lemma batch_changes_only_on_pick_witness :
  questions (game (after QUESTIONS_inline sample_oracle ClickStart sample_named))
  = questions (game sample_named).
Proof.
  assert (Hreach : reachable QUESTIONS_inline sample_oracle sample_named)
    by apply reachable_run, reachable_mount.
  destruct (batch_changes_only_on_pick QUESTIONS_inline sample_oracle sample_named
              ClickStart Hreach) as [(H & _)|(v & Hv & _)].
  - exact H.
  - discriminate Hv.
Defined.

(** X3. The index of the current question never runs past the batch: a
    batch that is not empty always has a current question, and with an
    empty batch the index is 0 and there is none. *)
Theorem current_question_in_bounds
    (QUESTIONS : list Question) (Math_random : nat → Sample) (w : World) :
  reachable QUESTIONS Math_random w →
  (questions (game w) ≠ [] →
     currentIdx (game w) < total (game w) ∧ is_Some (current (game w)))
  ∧ (questions (game w) = [] → currentIdx (game w) = 0 ∧ current (game w) = None).
Proof.
  intros Hreach.
  destruct (reachable_page_inv _ _ _ Hreach) as (Hidx & _).
  unfold total, current in *. split.
  - intros Hne.
    assert (Hlt : currentIdx (game w) < length (questions (game w))).
    { destruct Hidx as [->|?]; [|done]. destruct (questions (game w)); [done|simpl; lia]. }
    split; [done|]. by apply lookup_lt_is_Some_2.
  - intros Hnil. rewrite Hnil in *. simpl in *. split; [lia|done].
Qed.

Lemma current_question_in_bounds_witness :
  currentIdx (game sample_last) < total (game sample_last).
Proof.
  apply (current_question_in_bounds QUESTIONS_inline sample_oracle sample_last
           sample_last_reachable).
  intros H. vm_compute in H. discriminate H.
Defined.

(** ** The score between events *)

Lemma correct_from_le h qi qs : correct_from h qi qs ≤ length qs.
Proof.
  revert qi. induction qs as [|q qs IH]; intros qi; simpl; [done|].
  pose proof (IH (S qi)). case_bool_decide; lia.
Qed.

Section Account.
Variable QUESTIONS : list Question.
Variable Math_random : nat → Sample.
Implicit Types (w : World) (g : Game) (a : Action).

(** The only way out of the setup step is a successful start, which
    changes the step and nothing else. *)
Lemma leave_setup a w :
  step (game w) = setup → step (game (after QUESTIONS Math_random a w)) ≠ setup →
  a = ClickStart
  ∧ game (after QUESTIONS Math_random a w) = setStep playing (game w).
Proof.
  intros Hstep Hleft.
  destruct (rendered a (game w)) eqn:Hr;
    [|by rewrite after_not_rendered in Hleft].
  rewrite after_rendered in Hleft |- * by done. rewrite render_game in Hleft |- *.
  destruct a as [v|v| | |index|now| |sto]; simpl in Hr; simpl handler in *;
    rewrite ?lift_fst in *; simpl in *.
  - by rewrite !bool_decide_eq_true_2 in Hleft by done.
  - exfalso. apply Hleft. repeat case_bool_decide; simpl; done.
  - by rewrite !bool_decide_eq_true_2 in Hleft by done.
  - split; [done|]. unfold handleStart in *.
    destruct (truthy_string _); simpl in *.
    + rewrite bool_decide_eq_true_2 by done. rewrite Hstep.
      by rewrite !bool_decide_eq_false_2 by done.
    + by rewrite !bool_decide_eq_true_2 in Hleft by done.
  - rewrite Hstep in Hr. done.
  - rewrite Hstep in Hr. done.
  - rewrite Hstep in Hr. done.
  - by rewrite !bool_decide_eq_true_2 in Hleft by done.
Qed.

(** In every reachable world the score is accounted for by the answers
    submitted since the session started. *)
Lemma reachable_scoring w :
  reachable QUESTIONS Math_random w →
  (step (game w) = setup ∧ score (game w) = 0%Z)
  ∨ (step (game w) ≠ setup
     ∧ ∃ h, scoring_inv (difficulty (game w)) (questions (game w)) h (game w)).
Proof.
  induction 1 as [sto k|a w Hreach IH].
  - left. unfold mount. by destruct (filtered_memo _ _ easy k).
  - assert (Hinv' : session_inv (game (after QUESTIONS Math_random a w)))
      by (apply reachable_inv with QUESTIONS Math_random; by constructor).
    destruct (decide (step (game (after QUESTIONS Math_random a w)) = setup)) as [Hs|Hs].
    { left. split; [done|]. destruct Hinv' as (_ & Hsetup & _). by apply Hsetup. }
    right. split; [done|].
    destruct IH as [[Hstep Hscore]|[Hstep [h Hh]]].
    + destruct (leave_setup a w Hstep Hs) as [-> Hgame].
      destruct (reachable_inv _ _ _ Hreach) as (_ & Hsetup & _).
      destruct (Hsetup Hstep) as (Hidx & _ & Hsel & _).
      exists []. rewrite Hgame. apply session_start_inv. by repeat split.
    + assert (a = ClickRestart ∨ a ≠ ClickRestart) as [->|Ha]
        by (destruct a; (by left) || (by right)).
      * destruct (decide (step (game w) = result)) as [Hres|Hres].
        -- rewrite restart_game in Hs by done. done.
        -- rewrite after_not_rendered by (simpl; by apply bool_decide_eq_false_2).
           by exists h.
      * destruct (scoring_step QUESTIONS Math_random _ _ h a w Hh Ha) as [Hh' _].
        exists (h ++ submission a (game w)).
        pose proof Hh' as (_ & Hd & Hq & _). rewrite Hd, Hq. exact Hh'.
Qed.
End Account.

(** X4. In every reachable world the score is a multiple of the points of
    the difficulty picked, at most one award per question of the batch: it
    lies between 0 and [DIFFICULTY_POINTS d * total], hence never above
    300. *)
Theorem score_within_bounds
    (QUESTIONS : list Question) (Math_random : nat → Sample) (w : World) :
  reachable QUESTIONS Math_random w →
  (∃ n, n ≤ total (game w)
        ∧ score (game w) = (DIFFICULTY_POINTS (difficulty (game w)) * Z.of_nat n)%Z)
  ∧ (0 ≤ score (game w)
       ≤ DIFFICULTY_POINTS (difficulty (game w)) * Z.of_nat (total (game w)))%Z
  ∧ (score (game w) ≤ 300)%Z.
Proof.
  intros Hreach.
  assert (Hn : ∃ n, n ≤ total (game w)
                 ∧ score (game w) = (DIFFICULTY_POINTS (difficulty (game w)) * Z.of_nat n)%Z).
  { destruct (reachable_scoring _ _ _ Hreach) as [[_ Hscore]|[_ [h Hh]]].
    - exists 0. split; [lia|]. rewrite Hscore. lia.
    - exists (correct_count (questions (game w)) h). split.
      + apply correct_from_le.
      + by destruct Hh as (_ & _ & _ & Hscore & _). }
  split; [done|].
  destruct Hn as (n & Hle & Hscore).
  destruct (reachable_inv _ _ _ Hreach) as (Hq & _).
  destruct (reachable_page_inv _ _ _ Hreach) as (_ & _ & _ & _ & Hlen & _).
  assert (Htotal : total (game w) ≤ 10) by (unfold total; by rewrite Hq).
  pose proof (DIFFICULTY_POINTS_pos (difficulty (game w))) as Hpos.
  assert (Hmax : (DIFFICULTY_POINTS (difficulty (game w)) ≤ 30)%Z)
    by (destruct (difficulty (game w)); simpl; lia).
  rewrite Hscore. split; nia.
Qed.

Lemma score_within_bounds_witness : (0 ≤ score (game sample_finished) ≤ 30)%Z.
Proof.
  pose proof (score_within_bounds QUESTIONS_inline sample_oracle sample_finished
                sample_finished_reachable) as (_ & H & _).
  exact H.
Defined.

(** ** The entry a finished session records *)

Lemma trimEnd_head_kept c s :
  trimEnd (c :: s) = [] ∨ ∃ s', trimEnd (c :: s) = c :: s'.
Proof.
  simpl. destruct (trimEnd s); [|right; by eexists].
  destruct (is_white_space c); [by left|right; by eexists].
Qed.

Lemma trimEnd_idem s : trimEnd (trimEnd s) = trimEnd s.
Proof.
  induction s as [|c s IH]; [done|]. simpl.
  destruct (trimEnd s) as [|c' kept] eqn:E.
  - destruct (is_white_space c) eqn:Hc; [done|]. simpl. by rewrite Hc.
  - change (trimEnd (c :: c' :: kept) = c :: c' :: kept).
    cbn [trimEnd] in IH |- *. by rewrite IH.
Qed.

(** Trimming a trimmed string changes nothing. *)
Lemma trim_idem s : trim (trim s) = trim s.
Proof.
  unfold trim. destruct (trimStart s) as [|c t] eqn:E; [done|].
  pose proof (trimStart_head _ _ _ E) as Hc.
  destruct (trimEnd_head_kept c t) as [->|[t' Ht']]; [done|].
  rewrite Ht'. cbn [trimStart]. rewrite Hc. rewrite <- Ht'. apply trimEnd_idem.
Qed.

Section Finish.
Variable QUESTIONS : list Question.
Variable Math_random : nat → Sample.
Implicit Types (w : World) (g : Game) (a : Action).

Lemma next_rendered now w :
  step (game w) = playing → is_Some (current (game w)) →
  rendered (ClickNext now) (game w) = true.
Proof.
  intros Hstep Hcur. simpl. by rewrite !bool_decide_eq_true_2.
Qed.

(** [Finish] on the last question, with storage that can be written and
    from which an array is read. *)
Lemma finish_granted now w items :
  step (game w) = playing → is_Some (current (game w)) →
  ¬ currentIdx (game w) + 1 < total (game w) →
  localStorage w = Granted items → reads_array (Granted items) →
  let e := ScoreEntry.mk (trim (playerName (game w))) (score (game w)) now in
  let updated := updated_of (allocate 1 (stored (Granted items))) (0, e) in
  after QUESTIONS Math_random (ClickNext now) w
  = mkWorld (setStep result (setRank (or_null (newRank_of updated (0, e))) (game w)))
            (Granted (<[LB_KEY := Json (updated.*2)]> items)) (randomCalls w).
Proof.
  intros Hstep Hcur Hlast Hsto Hread e updated.
  rewrite after_rendered by by apply next_rendered.
  simpl handler. unfold next. rewrite bool_decide_eq_false_2 by done.
  rewrite Hsto, record_granted by done. fold e. fold updated.
  unfold render. simpl. rewrite bool_decide_eq_true_2 by done. rewrite Hstep. done.
Qed.

(** [Next] before the last question. *)
Lemma next_advances now w :
  step (game w) = playing → is_Some (current (game w)) →
  currentIdx (game w) + 1 < total (game w) →
  after QUESTIONS Math_random (ClickNext now) w
  = mkWorld (setSelected None (setCurrentIdx (currentIdx (game w) + 1) (game w)))
            (localStorage w) (randomCalls w).
Proof.
  intros Hstep Hcur Hlt.
  rewrite after_rendered by by apply next_rendered.
  simpl handler. unfold next. rewrite bool_decide_eq_true_2 by done.
  unfold render. simpl. by rewrite !bool_decide_eq_true_2 by done.
Qed.

(** [Finish] on the last question, with storage that is denied. *)
Lemma finish_denied now w :
  step (game w) = playing → is_Some (current (game w)) →
  ¬ currentIdx (game w) + 1 < total (game w) →
  localStorage w = Denied →
  dispatch QUESTIONS Math_random (ClickNext now) w
  = (w, sfx (game w) click ++ [Uncaught "DOMException"]).
Proof.
  intros Hstep Hcur Hlast Hsto.
  unfold dispatch. rewrite next_rendered by done.
  simpl handler. unfold next. rewrite bool_decide_eq_false_2 by done.
  rewrite Hsto, record_denied. by rewrite render_same.
Qed.

(** [Finish] on the last question, with JSON in the storage that is not
    an array. *)
Lemma finish_not_array now w items v :
  step (game w) = playing → is_Some (current (game w)) →
  ¬ currentIdx (game w) + 1 < total (game w) →
  localStorage w = Granted items → items !! LB_KEY = Some (JsonOther v) →
  dispatch QUESTIONS Math_random (ClickNext now) w
  = (w, sfx (game w) click ++ [Uncaught "TypeError"]).
Proof.
  intros Hstep Hcur Hlast Hsto Hv.
  unfold dispatch. rewrite next_rendered by done.
  simpl handler. unfold next. rewrite bool_decide_eq_false_2 by done.
  rewrite Hsto, (record_other _ items v) by done. by rewrite render_same.
Qed.
End Finish.

(** X5. When [Finish] is clicked on the last question of a reachable
    session, the storage can be written, and what it holds under the key
    is a leaderboard, nothing, or a text that is not JSON, the page shows
    the result step and has recorded an entry with the session's score
    and the trimmed player name, which is not empty and has no white
    space left to trim.  The persisted leaderboard is made of earlier
    entries and that one; with a rank [r] the entry sits at position
    [r - 1] of it, and without a rank the leaderboard is full of entries
    scoring at least as much. *)
Theorem finish_records_trimmed_entry
    (QUESTIONS : list Question) (Math_random : nat → Sample) (w : World)
    (now : JSString) (items : gmap string StoredText) :
  reachable QUESTIONS Math_random w →
  step (game w) = playing → is_Some (current (game w)) →
  ¬ currentIdx (game w) + 1 < total (game w) →
  localStorage w = Granted items → reads_array (Granted items) →
  let w' := after QUESTIONS Math_random (ClickNext now) w in
  let e := ScoreEntry.mk (trim (playerName (game w))) (score (game w)) now in
  step (game w') = result
  ∧ score (game w') = score (game w)
  ∧ ScoreEntry.name e ≠ []
  ∧ trim (ScoreEntry.name e) = ScoreEntry.name e
  ∧ stored (localStorage w') ⊆+ stored (localStorage w) ++ [e]
  ∧ match rank (game w') with
    | Some r => (1 ≤ r ≤ 20)%Z ∧ stored (localStorage w') !! Z.to_nat (r - 1) = Some e
    | None => length (stored (localStorage w')) = 20
              ∧ Forall (λ x, score_ge x e) (stored (localStorage w'))
    end.
Proof.
  intros Hreach Hstep Hcur Hlast Hsto Hread w' e.
  unfold w'. rewrite (finish_granted QUESTIONS Math_random now w items) by done.
  fold e. set (updated := updated_of (allocate 1 (stored (Granted items))) (0, e)).
  cbn [game step score rank localStorage setStep setRank]. rewrite stored_written.
  destruct (reachable_page_inv _ _ _ Hreach) as (_ & Hname & _).
  split_and!.
  - done.
  - done.
  - simpl. intros Hempty. apply trim_blank in Hempty.
    rewrite Hname in Hempty by (by rewrite Hstep). done.
  - apply trim_idem.
  - rewrite Hsto.
    replace (stored (Granted items) ++ [e])
      with ((allocate 1 (stored (Granted items)) ++ [(0, e)]).*2)
      by (rewrite fmap_app, allocate_snd; done).
    apply fmap_submseteq, updated_of_submseteq.
  - destruct (updated_of_entry (stored (Granted items)) e) as [Hin Hout].
    change (updated_of (allocate 1 (stored (Granted items))) (0, e)) with updated
      in Hin, Hout.
    destruct (decide (ahead_of e (stored (Granted items)) < 20)) as [Hlt|Hge].
    + destruct (Hin Hlt) as (Hat & _ & Hfind).
      unfold newRank_of. rewrite Hfind. unfold or_null.
      rewrite (proj2 (Z.eqb_neq _ _)) by lia. split; [lia|].
      replace (Z.to_nat (Z.of_nat (ahead_of e (stored (Granted items))) + 1 - 1))
        with (ahead_of e (stored (Granted items))) by lia.
      rewrite list_lookup_fmap. transitivity (snd <$> Some (0, e)); [|done].
      f_equal. exact Hat.
    + destruct (Hout ltac:(lia)) as (_ & Hall & Hlen & Hfind).
      unfold newRank_of. rewrite Hfind. simpl.
      split; [by rewrite length_fmap|by apply Forall_fmap].
Qed.

Lemma finish_records_trimmed_entry_witness :
  step (game (after QUESTIONS_inline sample_oracle
                    (ClickNext (js "2025-01-01T10:00:09.000Z")) sample_last)) = result
  ∧ trim (js " Ada ") = js "Ada".
Proof.
  assert (Hstep : step (game sample_last) = playing) by (vm_compute; reflexivity).
  assert (Hcur : is_Some (current (game sample_last)))
    by (apply lookup_lt_is_Some_2; vm_compute; lia).
  assert (Hlast : ¬ currentIdx (game sample_last) + 1 < total (game sample_last))
    by (vm_compute; lia).
  assert (Hsto : localStorage sample_last = Granted ∅) by (vm_compute; reflexivity).
  assert (Hread : reads_array (Granted ∅)) by reflexivity.
  pose proof (finish_records_trimmed_entry QUESTIONS_inline sample_oracle sample_last
                (js "2025-01-01T10:00:09.000Z") ∅ sample_last_reachable Hstep Hcur Hlast
                Hsto Hread) as (Hres & _).
  split; [exact Hres|reflexivity].
Defined.

(** ** Sessions that cannot end *)

Section DeadEnds.
Variable QUESTIONS : list Question.
Variable Math_random : nat → Sample.
Implicit Types (w : World) (g : Game) (a : Action).

(** With storage denied, no event of the page leaves the playing step. *)
Lemma denied_step a w :
  localStorage w = Denied → step (game w) = playing →
  (∀ sto, a ≠ StorageChanged sto) →
  localStorage (after QUESTIONS Math_random a w) = Denied
  ∧ step (game (after QUESTIONS Math_random a w)) = playing
  ∧ rank (game (after QUESTIONS Math_random a w)) = rank (game w).
Proof.
  intros Hsto Hstep Ha.
  destruct (rendered a (game w)) eqn:Hr; [|by rewrite after_not_rendered].
  rewrite after_rendered by done.
  rewrite (proj1 (render_env _ _ _ _)), render_game.
  destruct a as [v|v| | |index|now| |sto]; simpl in Hr; simpl handler;
    try (rewrite Hstep in Hr; done).
  - rewrite lift_fst. simpl. by rewrite !bool_decide_eq_true_2 by done.
  - rewrite lift_fst. simpl.
    destruct (handleOption_game index (game w)) as [->|[[_ ->]|(_ & _ & ->)]]; simpl;
      by rewrite !bool_decide_eq_true_2 by done.
  - destruct (next_game now w) as [(Hg & _ & Hs)|[[-> _]|(newRank & sto' & Hrec & _)]].
    + rewrite Hg, Hs. simpl. by rewrite !bool_decide_eq_true_2 by done.
    + by rewrite !bool_decide_eq_true_2 by done.
    + rewrite Hsto, record_denied in Hrec. done.
  - by destruct (Ha sto).
Qed.

(** With an empty batch, no event changes anything but the sound switch
    and the storage. *)
Lemma empty_batch_step a w :
  step (game w) = playing → questions (game w) = [] →
  game (after QUESTIONS Math_random a w)
  = setSoundOn (soundOn (game (after QUESTIONS Math_random a w))) (game w)
  ∧ ((∀ sto, a ≠ StorageChanged sto) →
     localStorage (after QUESTIONS Math_random a w) = localStorage w).
Proof.
  intros Hstep Hq.
  assert (Heta : ∀ g, setSoundOn (soundOn g) g = g) by by intros [].
  assert (Hcur : current (game w) = None) by (unfold current; by rewrite Hq).
  destruct (rendered a (game w)) eqn:Hr; [|by rewrite after_not_rendered].
  rewrite after_rendered by done.
  rewrite (proj1 (render_env _ _ _ _)), render_game.
  destruct a as [v|v| | |index|now| |sto]; simpl in Hr; simpl handler;
    try (rewrite Hstep in Hr; done).
  - rewrite lift_fst. simpl. by rewrite !bool_decide_eq_true_2 by done.
  - rewrite Hstep, Hcur in Hr. done.
  - rewrite Hstep, Hcur in Hr. simpl in Hr. done.
  - simpl. rewrite !bool_decide_eq_true_2 by done. split; [done|].
    intros Ha. by destruct (Ha sto).
Qed.
End DeadEnds.

(** X6. In a page that may not touch [localStorage], a session never
    reaches the result step: whatever the player does, the step stays
    [playing], no rank is set and nothing is stored, and [Finish] on the
    last question only lets an exception escape. *)
Theorem denied_storage_never_finishes
    (QUESTIONS : list Question) (Math_random : nat → Sample) (w : World)
    (acts : list Action) :
  localStorage w = Denied → step (game w) = playing →
  Forall (λ a, ∀ sto, a ≠ StorageChanged sto) acts →
  let w' := run QUESTIONS Math_random acts w in
  step (game w') = playing
  ∧ rank (game w') = rank (game w)
  ∧ localStorage w' = Denied
  ∧ (∀ now, is_Some (current (game w')) →
            ¬ currentIdx (game w') + 1 < total (game w') →
            dispatch QUESTIONS Math_random (ClickNext now) w'
            = (w', sfx (game w') click ++ [Uncaught "DOMException"])).
Proof.
  intros Hsto Hstep Hacts. cbv zeta.
  assert (H : step (game (run QUESTIONS Math_random acts w)) = playing
              ∧ rank (game (run QUESTIONS Math_random acts w)) = rank (game w)
              ∧ localStorage (run QUESTIONS Math_random acts w) = Denied).
  { revert w Hsto Hstep. induction Hacts as [|a acts Ha _ IH]; intros w Hsto Hstep; [done|].
    simpl. destruct (denied_step QUESTIONS Math_random a w Hsto Hstep Ha) as (Hs & Hp & Hr).
    rewrite <- Hr. by apply IH. }
  destruct H as (Hp & Hr & Hs). split_and!; try done.
  intros now Hcur Hlast. by apply finish_denied.
Qed.

Lemma denied_storage_never_finishes_witness :
  step (game (run QUESTIONS_inline sample_oracle
                  [ClickNext (js "t3"); ClickRestart; ClickNext (js "t4")]
                  sample_denied)) = playing.
Proof.
  assert (Hsto : localStorage sample_denied = Denied) by (vm_compute; reflexivity).
  assert (Hstep : step (game sample_denied) = playing) by (vm_compute; reflexivity).
  apply (denied_storage_never_finishes QUESTIONS_inline sample_oracle sample_denied
           [ClickNext (js "t3"); ClickRestart; ClickNext (js "t4")] Hsto Hstep).
  repeat constructor; discriminate.
Defined.

(** X7. With an empty batch (no question of the difficulty picked in the
    bank) a started session is a dead end: the question card is not
    rendered, so whatever the player does the step stays [playing] with
    index, score, selection and rank untouched, and the page writes
    nothing to the storage. *)
Theorem empty_batch_dead_end
    (QUESTIONS : list Question) (Math_random : nat → Sample) (w : World)
    (acts : list Action) :
  step (game w) = playing → questions (game w) = [] →
  let w' := run QUESTIONS Math_random acts w in
  game w' = setSoundOn (soundOn (game w')) (game w)
  ∧ step (game w') = playing
  ∧ (Forall (λ a, ∀ sto, a ≠ StorageChanged sto) acts → localStorage w' = localStorage w).
Proof.
  intros Hstep Hq. cbv zeta.
  assert (H : game (run QUESTIONS Math_random acts w)
              = setSoundOn (soundOn (game (run QUESTIONS Math_random acts w))) (game w)
              ∧ (Forall (λ a, ∀ sto, a ≠ StorageChanged sto) acts →
                 localStorage (run QUESTIONS Math_random acts w) = localStorage w)).
  { revert w Hstep Hq. induction acts as [|a acts IH]; intros w Hstep Hq.
    - simpl. split; [by destruct (game w)|done].
    - simpl. destruct (empty_batch_step QUESTIONS Math_random a w Hstep Hq) as [Hg Hs].
      destruct (IH (after QUESTIONS Math_random a w)) as [IHg IHs].
      + by rewrite Hg.
      + by rewrite Hg.
      + split.
        * rewrite IHg at 1. by rewrite Hg.
        * intros Hacts. apply Forall_cons in Hacts as [Ha Hacts].
          rewrite IHs by done. by apply Hs. }
  destruct H as [Hg Hs]. split_and!; try done. by rewrite Hg.
Qed.

Lemma empty_batch_dead_end_witness :
  step (game (run [] sample_oracle
                  [ClickOption 0; ClickNext (js "t"); ClickRestart; ClickStart]
                  empty_bank_world)) = playing.
Proof.
  apply (empty_batch_dead_end [] sample_oracle empty_bank_world
           [ClickOption 0; ClickNext (js "t"); ClickRestart; ClickStart]);
    vm_compute; reflexivity.
Defined.

(** ** Skipping through a session, and what is written when *)

Section Skipping.
Variable QUESTIONS : list Question.
Variable Math_random : nat → Sample.
Implicit Types (w : World) (g : Game) (a : Action).

Lemma run_app acts1 acts2 w :
  run QUESTIONS Math_random (acts1 ++ acts2) w
  = run QUESTIONS Math_random acts2 (run QUESTIONS Math_random acts1 w).
Proof. unfold run. apply foldl_app. Qed.

Lemma run_next_clicks stamps : ∀ w,
  step (game w) = playing →
  currentIdx (game w) + length stamps < total (game w) →
  let w' := run QUESTIONS Math_random (ClickNext <$> stamps) w in
  step (game w') = playing
  ∧ currentIdx (game w') = currentIdx (game w) + length stamps
  ∧ score (game w') = score (game w)
  ∧ questions (game w') = questions (game w)
  ∧ localStorage w' = localStorage w.
Proof.
  induction stamps as [|now stamps IH]; intros w Hstep Hlt; cbv zeta.
  - simpl. split_and!; try done; lia.
  - cbn [length] in Hlt |- *.
    change (run QUESTIONS Math_random (ClickNext <$> now :: stamps) w)
      with (run QUESTIONS Math_random (ClickNext <$> stamps)
              (after QUESTIONS Math_random (ClickNext now) w)).
    assert (Hcur : is_Some (current (game w)))
      by (apply lookup_lt_is_Some_2; unfold total in Hlt; lia).
    pose proof (next_advances QUESTIONS Math_random now w Hstep Hcur ltac:(lia)) as Hnext.
    destruct (IH (after QUESTIONS Math_random (ClickNext now) w)) as (H1 & H2 & H3 & H4 & H5).
    + by rewrite Hnext.
    + rewrite Hnext. unfold total in *. simpl. lia.
    + rewrite H1, H2, H3, H4, H5, Hnext. simpl. split_and!; try done; lia.
Qed.
End Skipping.

(** X8. Answers are optional: from any point of a session, clicking
    [Next] once per question before the last walks through the batch one
    index at a time without touching score or storage, whatever the
    storage is.  The click on the last question ([Finish]) then ends the
    session with the score unchanged when the storage can be written and
    holds a leaderboard, nothing, or a text that is not JSON under the
    key; when the storage is denied or holds JSON that is not an array,
    that click throws and the session stays on the last question. *)
Theorem skipping_ends_session
    (QUESTIONS : list Question) (Math_random : nat → Sample) (w : World)
    (stamps : list JSString) (now : JSString) :
  step (game w) = playing →
  currentIdx (game w) + length stamps + 1 = total (game w) →
  let before := run QUESTIONS Math_random (ClickNext <$> stamps) w in
  let w' := after QUESTIONS Math_random (ClickNext now) before in
  step (game before) = playing
  ∧ currentIdx (game before) = currentIdx (game w) + length stamps
  ∧ score (game before) = score (game w)
  ∧ localStorage before = localStorage w
  ∧ (∀ items, localStorage w = Granted items → reads_array (Granted items) →
       step (game w') = result ∧ score (game w') = score (game w))
  ∧ (localStorage w = Denied → w' = before)
  ∧ (∀ items v, localStorage w = Granted items →
       items !! LB_KEY = Some (JsonOther v) → w' = before).
Proof.
  intros Hstep Hlen before w'.
  destruct (run_next_clicks QUESTIONS Math_random stamps w Hstep ltac:(lia))
    as (H1 & H2 & H3 & H4 & H5).
  fold before in H1, H2, H3, H4, H5.
  assert (Hcur : is_Some (current (game before))).
  { apply lookup_lt_is_Some_2. rewrite H4, H2. unfold total in Hlen. lia. }
  assert (Hlast : ¬ currentIdx (game before) + 1 < total (game before)).
  { unfold total in *. rewrite H4, H2. lia. }
  split_and!; try done.
  - intros items Hsto Hread. unfold w'.
    rewrite (finish_granted QUESTIONS Math_random now before items H1 Hcur Hlast)
      by (done || by rewrite H5).
    simpl. by split_and!.
  - intros Hsto. unfold w', after.
    by rewrite (finish_denied QUESTIONS Math_random now before H1 Hcur Hlast)
      by (by rewrite H5).
  - intros items v Hsto Hv. unfold w', after.
    by rewrite (finish_not_array QUESTIONS Math_random now before items v H1 Hcur Hlast)
      by (done || by rewrite H5).
Qed.

Lemma skipping_ends_session_witness :
  step (game (after QUESTIONS_inline sample_oracle (ClickNext (js "t3"))
                (run QUESTIONS_inline sample_oracle
                     (ClickNext <$> [js "t1"; js "t2"]) sample_started))) = result.
Proof.
  assert (Hstep : step (game sample_started) = playing) by (vm_compute; reflexivity).
  assert (Hlen : currentIdx (game sample_started) + length [js "t1"; js "t2"] + 1
                 = total (game sample_started)) by (vm_compute; reflexivity).
  assert (Hsto : localStorage sample_started = Granted ∅) by (vm_compute; reflexivity).
  assert (Hread : reads_array (Granted ∅)) by reflexivity.
  pose proof (skipping_ends_session QUESTIONS_inline sample_oracle sample_started
                [js "t1"; js "t2"] (js "t3") Hstep Hlen) as (_ & _ & _ & _ & Hend & _).
  exact (proj1 (Hend ∅ Hsto Hread)).
Defined.

(** X9. The page writes to [localStorage] at one moment only: when
    [Finish] ends a session.  Then the value under the leaderboard key is
    replaced and every other key is left as it was; no other event of the
    page changes the storage. *)
Theorem storage_written_only_on_finish
    (QUESTIONS : list Question) (Math_random : nat → Sample) (a : Action) (w : World) :
  let w' := after QUESTIONS Math_random a w in
  localStorage w' = localStorage w
  ∨ (∃ sto, a = StorageChanged sto ∧ localStorage w' = sto)
  ∨ (∃ now items lb,
       a = ClickNext now
       ∧ step (game w) = playing ∧ step (game w') = result
       ∧ localStorage w = Granted items
       ∧ localStorage w' = Granted (<[LB_KEY := Json lb]> items)
       ∧ ∀ key, key ≠ LB_KEY →
           getItem (localStorage w') key = getItem (localStorage w) key).
Proof.
  cbv zeta.
  destruct (rendered a (game w)) eqn:Hr; [|left; by rewrite after_not_rendered].
  rewrite after_rendered by done. rewrite (proj1 (render_env _ _ _ _)).
  destruct a as [v|v| | |index|now| |sto]; simpl handler;
    try (left; by rewrite lift_fst).
  - simpl in Hr. apply andb_prop in Hr as [Hplay Hcur].
    apply bool_decide_eq_true in Hplay. apply bool_decide_eq_true in Hcur.
    destruct (next_game now w) as [(_ & _ & Hs)|[[-> _]|(newRank & sto' & Hrec & Hlast & Hn)]];
      [by left|by left|].
    right; right.
    destruct (record_returned _ _ _ _ Hrec) as (items & Hsto & Hread).
    rewrite Hsto in Hrec, Hread |- *.
    rewrite record_granted in Hrec by done. injection Hrec as _ <-.
    eexists now, items, _. rewrite render_game, Hn. simpl.
    rewrite bool_decide_eq_true_2 by done. rewrite Hplay.
    rewrite !bool_decide_eq_false_2 by done. simpl.
    split_and!; try done.
    intros key Hkey. by rewrite lookup_insert_ne.
  - right; left. by exists sto.
Qed.

(** ** More on recording *)

Lemma sort_insert_front x l :
  Forall (ref_score_ge x) l → sort_insert by_score_desc x l = x :: l.
Proof.
  destruct 1 as [|y l Hy _]; simpl; [done|].
  rewrite by_score_desc_le. by rewrite bool_decide_eq_true_2.
Qed.

Lemma filter_all {A} (P : A → Prop) `{!∀ x, Decision (P x)} (l : list A) :
  Forall P l → filter P l = l.
Proof.
  induction 1 as [|x l Hx _ IH]; [done|]. by rewrite filter_cons_True, IH.
Qed.

Lemma filter_none {A} (P : A → Prop) `{!∀ x, Decision (P x)} (l : list A) :
  Forall (λ x, ¬ P x) l → filter P l = [].
Proof.
  induction 1 as [|x l Hx _ IH]; [done|]. by rewrite filter_cons_False, IH.
Qed.

(** Sorting a sorted array with one entry appended: the entry goes in
    behind the elements scoring at least as much, the rest keep their
    order. *)
Lemma sort_sorted_entry (refs : list Ref) (entry : Ref) :
  StronglySorted ref_score_ge refs →
  sort by_score_desc (refs ++ [entry])
  = filter (λ z, ref_score_ge z entry) refs
    ++ entry :: filter (λ z, ¬ ref_score_ge z entry) refs.
Proof.
  induction 1 as [|x refs Hsorted IH Hx]; [done|].
  change (sort by_score_desc ((x :: refs) ++ [entry]))
    with (sort_insert by_score_desc x (sort by_score_desc (refs ++ [entry]))).
  rewrite IH.
  destruct (decide (ref_score_ge x entry)) as [Hge|Hlt].
  - rewrite sort_insert_before
      by (rewrite by_score_desc_le; by apply bool_decide_eq_true_2).
    rewrite filter_cons_True by done. rewrite filter_cons_False by (by intros []).
    rewrite sort_insert_front; [done|].
    apply Forall_forall. intros z Hz. apply list_elem_of_filter in Hz as [_ Hz].
    rewrite Forall_forall in Hx. by apply Hx.
  - assert (Hall : Forall (λ z, ¬ ref_score_ge z entry) refs).
    { eapply Forall_impl; [exact Hx|]. intros z Hz Hze. apply Hlt. by etrans. }
    rewrite filter_cons_False by done.
    rewrite (filter_cons_True (λ z, ¬ ref_score_ge z entry)) by done.
    rewrite (filter_none (λ z, ref_score_ge z entry)) by done.
    rewrite (filter_all (λ z, ¬ ref_score_ge z entry)) by done.
    simpl. rewrite by_score_desc_le. rewrite bool_decide_eq_false_2 by done.
    by rewrite sort_insert_front.
Qed.

Lemma allocate_sorted base lb :
  StronglySorted score_ge lb → StronglySorted ref_score_ge (allocate base lb).
Proof.
  intros Hlb. revert base. induction Hlb as [|x lb Hlb IH Hx]; intros base.
  - constructor.
  - rewrite allocate_cons. constructor; [apply IH|].
    apply Forall_forall. intros z Hz.
    assert (Hz2 : z.2 ∈ lb).
    { rewrite <- (allocate_snd (S base) lb). by apply list_elem_of_fmap_2. }
    rewrite Forall_forall in Hx. by apply Hx.
Qed.

Lemma allocate_filter (P' : Ref → Prop) (P : ScoreEntry → Prop)
    `{!∀ z, Decision (P' z)} `{!∀ x, Decision (P x)} base lb :
  (∀ z, P' z ↔ P z.2) →
  (filter P' (allocate base lb)).*2 = filter P lb.
Proof.
  intros HP. revert base. induction lb as [|x lb IH]; intros base; [done|].
  rewrite allocate_cons.
  destruct (decide (P x)) as [Hx|Hx].
  - rewrite filter_cons_True by (by apply HP).
    rewrite (filter_cons_True P) by done. simpl. by rewrite IH.
  - rewrite filter_cons_False by (by rewrite HP).
    rewrite (filter_cons_False P) by done. apply IH.
Qed.

(** The rank recording returns, in closed form. *)
Lemma record_rank_closed_form e items :
  reads_array (Granted items) →
  ∃ sto', record e (Granted items)
          = Returned (if decide (ahead_of e (stored (Granted items)) < 20)
                      then Some (Z.of_nat (ahead_of e (stored (Granted items))) + 1)%Z
                      else None, sto').
Proof.
  intros Hread. eexists. rewrite record_granted by done. f_equal. f_equal.
  destruct (updated_of_entry (stored (Granted items)) e) as [Hin Hout].
  unfold newRank_of, or_null. case_decide as Hahead.
  - destruct (Hin Hahead) as (_ & _ & ->).
    by rewrite (proj2 (Z.eqb_neq _ _)) by lia.
  - destruct (Hout ltac:(lia)) as (_ & _ & _ & ->). done.
Qed.

Lemma length_filter_mono {A} (P Q : A → Prop) `{!∀ x, Decision (P x)} `{!∀ x, Decision (Q x)}
    (l : list A) :
  (∀ x, P x → Q x) → length (filter P l) ≤ length (filter Q l).
Proof.
  intros HPQ. induction l as [|x l IH]; [done|].
  destruct (decide (P x)) as [HP|HP].
  - rewrite filter_cons_True by done. rewrite (filter_cons_True Q) by auto. simpl. lia.
  - rewrite filter_cons_False by done.
    destruct (decide (Q x)).
    + rewrite (filter_cons_True Q) by done. simpl. lia.
    + by rewrite (filter_cons_False Q) by done.
Qed.

(** X10. Recording into a leaderboard that is sorted keeps the order of
    the earlier entries and puts the new one right behind those scoring
    at least as much, so that on a tie the earlier entry stays ahead; the
    result is cut to 20.  A full sorted leaderboard whose entries all
    score at least as much is left exactly as it was, and no rank is
    returned. *)
Theorem record_into_sorted_board (e : ScoreEntry) (items : gmap string StoredText) :
  let lb := stored (Granted items) in
  readLeaderboard (Granted items) = Returned (Entries lb) →
  StronglySorted score_ge lb →
  ∃ newRank sto',
    record e (Granted items) = Returned (newRank, sto')
    ∧ stored sto'
      = take 20 (filter (λ x, score_ge x e) lb ++ e :: filter (λ x, ¬ score_ge x e) lb)
    ∧ (length lb = 20 → Forall (λ x, score_ge x e) lb →
       stored sto' = lb ∧ newRank = None).
Proof.
  intros lb Hread Hsorted.
  destruct (record_rank_closed_form e items Hread) as [sto' Hrec].
  pose proof (record_granted e items Hread) as Hrec'. cbv zeta in Hrec'.
  rewrite Hrec' in Hrec. injection Hrec as Hrank Hsto.
  eexists _, _. split; [exact Hrec'|].
  rewrite stored_written. fold lb in Hrank |- *.
  assert (Hupd : (updated_of (allocate 1 lb) (0, e)).*2
                 = take 20 (filter (λ x, score_ge x e) lb
                            ++ e :: filter (λ x, ¬ score_ge x e) lb)).
  { unfold updated_of. rewrite sort_sorted_entry by by apply allocate_sorted.
    rewrite fmap_take, fmap_app, fmap_cons.
    rewrite (allocate_filter _ (λ x, score_ge x e)) by done.
    by rewrite (allocate_filter _ (λ x, ¬ score_ge x e)) by done. }
  split; [exact Hupd|].
  intros Hlen Hall. split.
  - rewrite Hupd. rewrite filter_all by done. rewrite take_app_le by lia.
    apply take_ge. lia.
  - rewrite Hrank. unfold ahead_of. rewrite filter_all by done.
    by rewrite decide_False by lia.
Qed.

Lemma record_into_sorted_board_witness :
  ∃ newRank sto',
    record (ScoreEntry.mk (js "Cy") 20 (js "2025-01-01T10:00:00.000Z")) short_storage
    = Returned (newRank, sto')
    ∧ stored sto'
      = [ScoreEntry.mk (js "Bea") 40 (js "2024-12-31T09:00:00.000Z");
         ScoreEntry.mk (js "Dan") 20 (js "2024-12-31T09:05:00.000Z");
         ScoreEntry.mk (js "Cy") 20 (js "2025-01-01T10:00:00.000Z")].
Proof.
  assert (Hread : readLeaderboard short_storage
                  = Returned (Entries (stored short_storage))) by reflexivity.
  assert (Hsorted : StronglySorted score_ge (stored short_storage)).
  { vm_compute stored. repeat constructor; unfold score_ge; simpl; lia. }
  destruct (record_into_sorted_board
              (ScoreEntry.mk (js "Cy") 20 (js "2025-01-01T10:00:00.000Z"))
              {[ LB_KEY := Json short_board ]} Hread Hsorted)
    as (newRank & sto' & Hrec & Hstored & _).
  exists newRank, sto'. split; [exact Hrec|]. rewrite Hstored. reflexivity.
Defined.

(** X11. On the same leaderboard a higher score never gets a worse rank:
    if an entry is ranked, every entry scoring at least as much would be
    ranked at least as high; an entry scoring more than every earlier one
    gets rank 1. *)
Theorem higher_score_no_worse_rank
    (e1 e2 : ScoreEntry) (items : gmap string StoredText) (r2 : Z) (sto2 : Storage) :
  (ScoreEntry.score e2 ≤ ScoreEntry.score e1)%Z →
  record e2 (Granted items) = Returned (Some r2, sto2) →
  (∃ r1 sto1, record e1 (Granted items) = Returned (Some r1, sto1) ∧ (1 ≤ r1 ≤ r2)%Z)
  ∧ (Forall (λ x, ScoreEntry.score x < ScoreEntry.score e1)%Z (stored (Granted items)) →
     ∃ sto1, record e1 (Granted items) = Returned (Some 1%Z, sto1)).
Proof.
  intros Hle Hrec2.
  destruct (record_returned _ _ _ _ Hrec2) as (items' & [= <-] & Hread).
  destruct (record_rank_closed_form e2 items Hread) as [sto2' Hc2].
  rewrite Hc2 in Hrec2. injection Hrec2 as Hr2 _.
  case_decide as Hahead2; [|done]. injection Hr2 as <-.
  assert (Hmono : ahead_of e1 (stored (Granted items)) ≤ ahead_of e2 (stored (Granted items))).
  { apply length_filter_mono. unfold score_ge. intros x. lia. }
  destruct (record_rank_closed_form e1 items Hread) as [sto1 Hc1].
  rewrite decide_True in Hc1 by lia.
  split.
  - eexists _, sto1. split; [exact Hc1|]. lia.
  - intros Hall. exists sto1. rewrite Hc1. do 3 f_equal.
    assert (Hzero : ahead_of e1 (stored (Granted items)) = 0).
    { unfold ahead_of. rewrite filter_none; [done|].
      eapply Forall_impl; [exact Hall|]. unfold score_ge. intros x. simpl. lia. }
    rewrite Hzero. done.
Qed.

Lemma higher_score_no_worse_rank_witness :
  ∃ r1 sto1,
    record (ScoreEntry.mk (js "Eve") 30 (js "2025-01-01T10:00:00.000Z")) short_storage
    = Returned (Some r1, sto1) ∧ (1 ≤ r1 ≤ 3)%Z.
Proof.
  assert (Hrec2 : ∃ sto2,
            record (ScoreEntry.mk (js "Cy") 20 (js "2025-01-01T10:00:00.000Z"))
                   short_storage = Returned (Some 3%Z, sto2))
    by (eexists; vm_compute; reflexivity).
  destruct Hrec2 as [sto2 Hrec2].
  apply (higher_score_no_worse_rank
           (ScoreEntry.mk (js "Eve") 30 (js "2025-01-01T10:00:00.000Z"))
           (ScoreEntry.mk (js "Cy") 20 (js "2025-01-01T10:00:00.000Z"))
           {[ LB_KEY := Json short_board ]} 3 sto2); [simpl; lia|exact Hrec2].
Defined.

(** X12. What [writeLeaderboard] writes, [readLeaderboard] reads back, the
    empty list included; the list component shows its first ten entries;
    the items under other keys are not touched; a second write replaces
    the first; and in storage that is denied writing throws while reading
    gives the empty list. *)
Theorem leaderboard_write_read
    (lb : list ScoreEntry) (items : gmap string StoredText) :
  (∃ sto', writeLeaderboard lb (Granted items) = Returned sto'
           ∧ readLeaderboard sto' = Returned (Entries lb)
           ∧ LeaderboardList sto' = Returned (take 10 lb)
           ∧ (∀ key, key ≠ LB_KEY → getItem sto' key = getItem (Granted items) key)
           ∧ (∀ lb2, writeLeaderboard lb2 sto' = writeLeaderboard lb2 (Granted items)))
  ∧ writeLeaderboard lb Denied = Thrown
  ∧ readLeaderboard Denied = Returned (Entries []).
Proof.
  split_and!; [|done|done].
  eexists. split; [reflexivity|].
  assert (Hread : readLeaderboard (Granted (<[LB_KEY := JSON_stringify lb]> items))
                  = Returned (Entries lb)).
  { unfold readLeaderboard, JSON_stringify; simpl. by rewrite lookup_insert_eq. }
  split_and!.
  - exact Hread.
  - unfold LeaderboardList. by rewrite Hread.
  - intros key Hkey. simpl. by rewrite lookup_insert_ne.
  - intros lb2. unfold writeLeaderboard. simpl. by rewrite insert_insert_eq.
Qed.

(** ** The leaderboard list on the result card *)

Lemma LeaderboardList_rows_stored highlightName sto :
  reads_array sto →
  LeaderboardList_rows highlightName sto
  = Returned (imap (λ idx e,
                mkRow (ScoreEntry.name e ++ ScoreEntry.date e)
                      (bool_decide (ScoreEntry.name e = highlightName))
                      (idx + 1) (ScoreEntry.name e) (ScoreEntry.score e))
              (take 10 (stored sto))).
Proof. intros Hread. unfold LeaderboardList_rows. by rewrite Hread. Qed.

(** X13. After [Finish] on the last question of a reachable session, in
    storage that can be written and holds a leaderboard, nothing, or a
    text that is not JSON under the key, the list on the result card
    shows at most ten rows, numbered from 1 in the order of the persisted
    leaderboard, and marks exactly the rows whose name equals the player
    name as typed.  The row of the session just finished, when it is
    among them, carries the trimmed name, and so it is marked only if the
    name was typed without white space around it. *)
Theorem result_list_marks_typed_name
    (QUESTIONS : list Question) (Math_random : nat → Sample) (w : World)
    (now : JSString) (items : gmap string StoredText) :
  reachable QUESTIONS Math_random w →
  step (game w) = playing → is_Some (current (game w)) →
  ¬ currentIdx (game w) + 1 < total (game w) →
  localStorage w = Granted items → reads_array (Granted items) →
  let w' := after QUESTIONS Math_random (ClickNext now) w in
  let typed := playerName (game w) in
  ∃ rows,
    result_rows w' = Returned rows
    ∧ length rows ≤ 10
    ∧ (∀ i row, rows !! i = Some row →
         place row = i + 1
         ∧ (highlighted row = true ↔ shown_name row = typed)
         ∧ ∃ e, stored (localStorage w') !! i = Some e
                ∧ shown_name row = ScoreEntry.name e
                ∧ shown_score row = ScoreEntry.score e
                ∧ key row = ScoreEntry.name e ++ ScoreEntry.date e)
    ∧ (∀ r, rank (game w') = Some r → (r ≤ 10)%Z →
         rows !! Z.to_nat (r - 1)
         = Some (mkRow (trim typed ++ now) (bool_decide (trim typed = typed))
                       (Z.to_nat r) (trim typed) (score (game w)))).
Proof.
  intros Hreach Hstep Hcur Hlast Hsto Hread w' typed.
  set (e := ScoreEntry.mk (trim typed) (score (game w)) now).
  assert (Hname : playerName (game w') = typed).
  { unfold w'. by rewrite (finish_granted QUESTIONS Math_random now w items). }
  assert (Hread' : reads_array (localStorage w')).
  { unfold w'. rewrite (finish_granted QUESTIONS Math_random now w items) by done.
    apply reads_array_written. }
  eexists. unfold result_rows. rewrite Hname.
  split; [by apply LeaderboardList_rows_stored|].
  split_and!.
  - rewrite length_imap, length_take. lia.
  - intros i row Hrow. rewrite list_lookup_imap in Hrow.
    destruct (take 10 (stored (localStorage w')) !! i) as [x|] eqn:Hx; [|done].
    injection Hrow as <-. simpl. split_and!.
    + done.
    + by rewrite bool_decide_eq_true.
    + exists x. split; [|done].
      apply lookup_take_Some in Hx. by destruct Hx.
  - intros r Hr Hr10.
    assert (Hat : (1 ≤ r ≤ 20)%Z ∧ stored (localStorage w') !! Z.to_nat (r - 1) = Some e).
    { unfold w' in Hr |- *.
      rewrite (finish_granted QUESTIONS Math_random now w items) in Hr |- * by done.
      cbn [game rank localStorage setStep setRank] in Hr |- *. rewrite stored_written.
      fold typed in Hr |- *. fold e in Hr |- *.
      destruct (updated_of_entry (stored (Granted items)) e) as [Hin Hout].
      unfold newRank_of, or_null in Hr.
      destruct (decide (ahead_of e (stored (Granted items)) < 20)) as [Hlt|Hge].
      - destruct (Hin Hlt) as (Hlook & _ & Hfind). rewrite Hfind in Hr.
        rewrite (proj2 (Z.eqb_neq _ _)) in Hr by lia. injection Hr as <-.
        split; [lia|].
        replace (Z.to_nat (Z.of_nat (ahead_of e (stored (Granted items))) + 1 - 1))
          with (ahead_of e (stored (Granted items))) by lia.
        rewrite list_lookup_fmap. transitivity (snd <$> Some (0, e)); [|done].
        f_equal. exact Hlook.
      - destruct (Hout ltac:(lia)) as (_ & _ & _ & Hfind). rewrite Hfind in Hr. done. }
    destruct Hat as [Hrange Hat].
    rewrite list_lookup_imap, lookup_take_lt by lia. rewrite Hat. simpl.
    do 2 f_equal. lia.
Qed.

Lemma result_list_marks_typed_name_witness :
  ∃ rows,
    result_rows (after QUESTIONS_inline sample_oracle
                       (ClickNext (js "2025-01-01T10:00:09.000Z")) sample_last)
    = Returned rows
    ∧ rows !! 0
      = Some (mkRow (js "Ada2025-01-01T10:00:09.000Z") false 1 (js "Ada") 10%Z).
Proof.
  assert (Hstep : step (game sample_last) = playing) by (vm_compute; reflexivity).
  assert (Hcur : is_Some (current (game sample_last)))
    by (apply lookup_lt_is_Some_2; vm_compute; lia).
  assert (Hlast : ¬ currentIdx (game sample_last) + 1 < total (game sample_last))
    by (vm_compute; lia).
  assert (Hsto : localStorage sample_last = Granted ∅) by (vm_compute; reflexivity).
  assert (Hread : reads_array (Granted ∅)) by reflexivity.
  destruct (result_list_marks_typed_name QUESTIONS_inline sample_oracle sample_last
              (js "2025-01-01T10:00:09.000Z") ∅ sample_last_reachable Hstep Hcur Hlast
              Hsto Hread)
    as (rows & Hrows & _ & _ & Hmine).
  exists rows. split; [exact Hrows|].
  assert (Hrank : rank (game (after QUESTIONS_inline sample_oracle
                                (ClickNext (js "2025-01-01T10:00:09.000Z")) sample_last))
                  = Some 1%Z) by (vm_compute; reflexivity).
  pose proof (Hmine 1%Z Hrank ltac:(lia)) as Hrow.
  change (Z.to_nat (1 - 1)) with 0 in Hrow. rewrite Hrow. vm_compute. reflexivity.
Defined.

(** ** Sound *)

(** X14. With the sound switched off no event plays a sound: whatever is
    clicked, no [playTone] goes past its guard. *)
Theorem sound_off_is_silent
    (QUESTIONS : list Question) (Math_random : nat → Sample) (a : Action) (w : World) :
  soundOn (game w) = false →
  Forall (λ n, ∀ s, n ≠ Played s) (dispatch QUESTIONS Math_random a w).2.
Proof.
  intros Hoff. unfold dispatch.
  destruct (rendered a (game w)); [|constructor].
  destruct (handler a w) as [w1 out] eqn:Hh. simpl.
  assert (Hsfx : ∀ s, sfx (game w) s = []) by (intros s; unfold sfx; by rewrite Hoff).
  destruct a as [v|v| | |index|now| |sto]; simpl in Hh; unfold lift in Hh.
  - injection Hh as _ <-. constructor.
  - injection Hh as _ <-. constructor.
  - injection Hh as _ <-. constructor.
  - unfold handleStart in Hh. rewrite Hsfx in Hh.
    destruct (truthy_string _); injection Hh as _ <-; repeat constructor; done.
  - unfold handleOption in Hh. rewrite !Hsfx in Hh.
    destruct (selected (game w)); [injection Hh as _ <-; constructor|].
    destruct (current (game w)) as [cur|].
    + case_bool_decide; injection Hh as _ <-; repeat constructor; done.
    + injection Hh as _ <-. repeat constructor; done.
  - unfold next in Hh. rewrite !Hsfx in Hh.
    case_bool_decide; [injection Hh as _ <-; constructor|].
    destruct (record _ _) as [[newRank sto']|]; injection Hh as _ <-;
      repeat constructor; done.
  - unfold restart in Hh. rewrite Hsfx in Hh. injection Hh as _ <-. constructor.
  - injection Hh as _ <-. constructor.
Qed.

Lemma sound_off_is_silent_witness :
  soundOn (game (after QUESTIONS_inline sample_oracle ToggleSound sample_named)) = false
  ∧ Forall (λ n, ∀ s, n ≠ Played s)
      (dispatch QUESTIONS_inline sample_oracle ClickStart
                (after QUESTIONS_inline sample_oracle ToggleSound sample_named)).2.
Proof.
  assert (Hoff : soundOn (game (after QUESTIONS_inline sample_oracle ToggleSound
                                      sample_named)) = false)
    by (vm_compute; reflexivity).
  split; [exact Hoff|].
  apply (sound_off_is_silent QUESTIONS_inline sample_oracle ClickStart _ Hoff).
Defined.

(** ** Page metadata *)

Lemma list_find_insert_same {A} (P : A → Prop) `{!∀ x, Decision (P x)} (l : list A) i x y :
  list_find P l = Some (i, x) → P y → list_find P (<[i := y]> l) = Some (i, y).
Proof.
  intros (Hi & _ & Hleast)%list_find_Some Hy.
  apply list_find_insert_Some. right; left.
  split_and!; try done. by eapply lookup_lt_Some.
Qed.

Lemma list_find_insert_other {A} (Q : A → Prop) `{!∀ x, Decision (Q x)} (l : list A) i x y :
  l !! i = Some x → ¬ Q x → ¬ Q y → list_find Q (<[i := y]> l) = list_find Q l.
Proof.
  revert i. induction l as [|z l IH]; intros [|i] Hi Hx Hy; simplify_eq/=.
  - by rewrite !decide_False by done.
  - destruct (decide (Q z)); [done|]. by rewrite (IH i).
Qed.

Lemma list_find_snoc_other {A} (Q : A → Prop) `{!∀ x, Decision (Q x)} (l : list A) c :
  ¬ Q c → list_find Q (l ++ [c]) = list_find Q l.
Proof.
  intros Hc. induction l as [|z l IH]; simpl.
  - by rewrite decide_False by done.
  - destruct (decide (Q z)); [done|]. by rewrite IH.
Qed.

Lemma list_find_snoc_new {A} (P : A → Prop) `{!∀ x, Decision (P x)} (l : list A) c :
  list_find P l = None → P c → list_find P (l ++ [c]) = Some (length l, c).
Proof.
  intros Hnone Hc. rewrite list_find_app_r by done. simpl.
  by rewrite decide_True by done.
Qed.

Lemma filter_insert_same {A} (P : A → Prop) `{!∀ x, Decision (P x)} (l : list A) i x y :
  l !! i = Some x → P x → P y →
  length (filter P (<[i := y]> l)) = length (filter P l).
Proof.
  revert i. induction l as [|z l IH]; intros [|i] Hi Hx Hy; simplify_eq/=.
  - by rewrite !filter_cons_True by done.
  - destruct (decide (P z)) as [Hz|Hz].
    + rewrite !filter_cons_True by done. simpl. by rewrite (IH i).
    + rewrite !filter_cons_False by done. by apply IH.
Qed.

Lemma filter_insert_other {A} (Q : A → Prop) `{!∀ x, Decision (Q x)} (l : list A) i x y :
  l !! i = Some x → ¬ Q x → ¬ Q y → filter Q (<[i := y]> l) = filter Q l.
Proof.
  revert i. induction l as [|z l IH]; intros [|i] Hi Hx Hy; simplify_eq/=.
  - by rewrite !filter_cons_False by done.
  - destruct (decide (Q z)) as [Hz|Hz].
    + rewrite !filter_cons_True by done. by rewrite (IH i).
    + rewrite !filter_cons_False by done. by apply IH.
Qed.

Lemma filter_nonempty {A} (P : A → Prop) `{!∀ x, Decision (P x)} (l : list A) i x :
  l !! i = Some x → P x → 0 < length (filter P l).
Proof.
  intros Hi Hx.
  assert (Hin : x ∈ filter P l).
  { apply list_elem_of_filter. split; [done|]. by eapply list_elem_of_lookup_2. }
  destruct (filter P l); [by apply not_elem_of_nil in Hin|simpl; lia].
Qed.

Section Elements.
Context (P : Element → Prop) `{!∀ el, Decision (P el)}.
Context (Q : Element → Prop) `{!∀ el, Decision (Q el)}.
Implicit Types (doc : Document) (p : Place) (x y c : Element).

Lemma first_element_Some doc p x :
  first_element P doc = Some (p, x) → element_at p doc = Some x ∧ P x.
Proof.
  unfold first_element.
  destruct (list_find P (Document.head doc)) as [[i el]|] eqn:Hh.
  - intros [= <- <-]. apply list_find_Some in Hh as (? & ? & _). done.
  - destruct (list_find P (Document.body doc)) as [[i el]|] eqn:Hb; [|done].
    intros [= <- <-]. apply list_find_Some in Hb as (? & ? & _). done.
Qed.

Lemma first_element_None doc :
  first_element P doc = None → Forall (λ el, ¬ P el) (elements doc).
Proof.
  unfold first_element, elements.
  destruct (list_find P (Document.head doc)) as [[i el]|] eqn:Hh; [done|].
  destruct (list_find P (Document.body doc)) as [[i el]|] eqn:Hb; [done|].
  intros _. apply Forall_app.
  split; [by apply list_find_None in Hh|by apply list_find_None in Hb].
Qed.

Lemma first_element_replace_same doc p x y :
  first_element P doc = Some (p, x) → P y →
  first_element P (replace_at p y doc) = Some (p, y).
Proof.
  unfold first_element.
  destruct (list_find P (Document.head doc)) as [[i el]|] eqn:Hh.
  - intros [= <- <-] Hy. simpl. by rewrite (list_find_insert_same _ _ i el).
  - destruct (list_find P (Document.body doc)) as [[i el]|] eqn:Hb; [|done].
    intros [= <- <-] Hy. simpl. rewrite Hh. by rewrite (list_find_insert_same _ _ i el).
Qed.

Lemma first_element_replace_other doc p x y :
  element_at p doc = Some x → ¬ Q x → ¬ Q y →
  first_element Q (replace_at p y doc) = first_element Q doc.
Proof.
  intros Hat Hx Hy. unfold first_element. destruct p as [i|i]; simpl in *.
  - by rewrite (list_find_insert_other Q _ i x y).
  - by rewrite (list_find_insert_other Q _ i x y).
Qed.

Lemma first_element_append_new doc c :
  first_element P doc = None → P c →
  first_element P (head_appendChild c doc) = Some (InHead (length (Document.head doc)), c).
Proof.
  unfold first_element. simpl.
  destruct (list_find P (Document.head doc)) as [[i el]|] eqn:Hh; [done|].
  intros _ Hc. by rewrite list_find_snoc_new.
Qed.

Lemma first_element_append_other doc c :
  ¬ Q c → first_element Q (head_appendChild c doc) = first_element Q doc.
Proof. intros Hc. unfold first_element. simpl. by rewrite list_find_snoc_other. Qed.

Lemma filter_replace_same doc p x y :
  element_at p doc = Some x → P x → P y →
  length (filter P (elements (replace_at p y doc))) = length (filter P (elements doc))
  ∧ 0 < length (filter P (elements doc)).
Proof.
  intros Hat Hx Hy. unfold elements. destruct p as [i|i]; simpl in *.
  - rewrite !filter_app, !length_app, (filter_insert_same P _ i x y) by done.
    split; [done|]. pose proof (filter_nonempty P _ i x Hat Hx). lia.
  - rewrite !filter_app, !length_app, (filter_insert_same P _ i x y) by done.
    split; [done|]. pose proof (filter_nonempty P _ i x Hat Hx). lia.
Qed.

Lemma filter_replace_other doc p x y :
  element_at p doc = Some x → ¬ Q x → ¬ Q y →
  filter Q (Document.head (replace_at p y doc)) = filter Q (Document.head doc)
  ∧ filter Q (Document.body (replace_at p y doc)) = filter Q (Document.body doc).
Proof.
  intros Hat Hx Hy. destruct p as [i|i]; simpl in *.
  - by rewrite (filter_insert_other Q _ i x y).
  - by rewrite (filter_insert_other Q _ i x y).
Qed.

Lemma filter_append_other doc c :
  ¬ Q c →
  filter Q (Document.head (head_appendChild c doc)) = filter Q (Document.head doc).
Proof.
  intros Hc. simpl. rewrite filter_app, filter_cons_False by done.
  by rewrite filter_nil, app_nil_r.
Qed.
End Elements.

Lemma replace_at_length p y doc :
  length (Document.head (replace_at p y doc)) = length (Document.head doc)
  ∧ length (Document.body (replace_at p y doc)) = length (Document.body doc).
Proof. destruct p; simpl; by rewrite length_insert. Qed.

Lemma replace_at_twice p x y doc : replace_at p y (replace_at p x doc) = replace_at p y doc.
Proof. destruct p; simpl; by rewrite list_insert_insert_eq. Qed.

Lemma replace_at_appended c y doc :
  replace_at (InHead (length (Document.head doc))) y (head_appendChild c doc)
  = head_appendChild y doc.
Proof.
  unfold replace_at, head_appendChild. simpl. f_equal.
  replace (length (Document.head doc)) with (length (Document.head doc) + 0) by lia.
  by rewrite insert_app_r.
Qed.

Lemma replace_at_commute p p' x y doc :
  p ≠ p' → replace_at p x (replace_at p' y doc) = replace_at p' y (replace_at p x doc).
Proof.
  intros Hne. destruct p as [i|i], p' as [j|j]; simpl; try done.
  - f_equal. apply list_insert_insert_ne. congruence.
  - f_equal. apply list_insert_insert_ne. congruence.
Qed.

Lemma replace_at_append p x c doc :
  is_Some (element_at p doc) →
  replace_at p x (head_appendChild c doc) = head_appendChild c (replace_at p x doc).
Proof.
  intros Hat. destruct p as [i|i]; simpl; [|done].
  unfold head_appendChild. simpl. f_equal.
  rewrite insert_app_l; [done|]. by apply lookup_lt_is_Some.
Qed.

Lemma set_page_seo_steps title description doc :
  set_page_seo title description doc
  = set_description description (set_document_title title doc).
Proof. done. Qed.

Lemma new_title value : is_title (set_text value (createElement "title")).
Proof. done. Qed.

Lemma set_text_title value el : is_title el → is_title (set_text value el).
Proof. done. Qed.

Lemma setAttribute_content_meta name d el :
  is_meta_named name el → is_meta_named name (setAttribute "content" d el).
Proof.
  intros [Htag Hname]. split; [done|]. simpl. by rewrite lookup_insert_ne.
Qed.

Lemma setAttribute_twice k d1 d2 el :
  setAttribute k d2 (setAttribute k d1 el) = setAttribute k d2 el.
Proof. unfold setAttribute. simpl. by rewrite insert_insert_eq. Qed.

Lemma new_tag_meta d :
  is_meta_named "description"
    (setAttribute "content" d (setAttribute "name" "description" (createElement "meta"))).
Proof. apply setAttribute_content_meta. split; [done|]. simpl. by rewrite lookup_insert_eq. Qed.

Lemma title_not_meta name el : is_title el → ¬ is_meta_named name el.
Proof. unfold is_title. intros Ht [Hm _]. congruence. Qed.

Lemma meta_not_title name el : is_meta_named name el → ¬ is_title el.
Proof. unfold is_title. intros [Hm _] Ht. congruence. Qed.

(** After the title was set the document has a title element, with the
    text given. *)
Lemma set_document_title_first value doc :
  ∃ p el, first_element is_title (set_document_title value doc) = Some (p, el)
          ∧ Element.textContent el = value.
Proof.
  unfold set_document_title.
  destruct (first_element is_title doc) as [[p el]|] eqn:Hfirst.
  - pose proof (first_element_Some _ _ _ _ Hfirst) as [_ Hel].
    exists p, (set_text value el). split; [|done].
    by apply (first_element_replace_same is_title doc p el).
  - eexists _, _. split; [by apply first_element_append_new|done].
Qed.

(** Setting the title again overwrites the text set before. *)
Lemma set_document_title_twice v1 v2 doc :
  set_document_title v2 (set_document_title v1 doc) = set_document_title v2 doc.
Proof.
  unfold set_document_title at 2.
  destruct (first_element is_title doc) as [[p el]|] eqn:Hfirst.
  - pose proof (first_element_Some _ _ _ _ Hfirst) as [_ Hel].
    unfold set_document_title.
    rewrite (first_element_replace_same is_title doc p el) by done.
    rewrite Hfirst. by rewrite replace_at_twice.
  - unfold set_document_title.
    rewrite first_element_append_new by done. rewrite Hfirst.
    by rewrite replace_at_appended.
Qed.

Lemma set_description_twice d1 d2 doc :
  set_description d2 (set_description d1 doc) = set_description d2 doc.
Proof.
  unfold set_description at 2, querySelector_meta.
  destruct (first_element (is_meta_named "description") doc) as [[p el]|] eqn:Hfirst.
  - pose proof (first_element_Some _ _ _ _ Hfirst) as [_ Hel].
    unfold set_description, querySelector_meta.
    rewrite (first_element_replace_same _ doc p el)
      by (done || by apply setAttribute_content_meta).
    rewrite Hfirst. by rewrite replace_at_twice, setAttribute_twice.
  - unfold set_description, querySelector_meta.
    rewrite first_element_append_new by (done || apply new_tag_meta). rewrite Hfirst.
    by rewrite replace_at_appended, setAttribute_twice.
Qed.

(** On a document with a title element, setting the title and setting
    the description can be done in either order. *)
Lemma set_title_description_commute v d doc :
  is_Some (first_element is_title doc) →
  set_document_title v (set_description d doc)
  = set_description d (set_document_title v doc).
Proof.
  intros [[pt t] Ht].
  pose proof (first_element_Some _ _ _ _ Ht) as [Hatt Htt].
  unfold set_description, querySelector_meta.
  destruct (first_element (is_meta_named "description") doc) as [[pm m]|] eqn:Hm.
  - pose proof (first_element_Some _ _ _ _ Hm) as [Hatm Hmm].
    assert (Hne : pt ≠ pm).
    { intros ->. rewrite Hatt in Hatm. injection Hatm as ->.
      by apply (meta_not_title "description" m). }
    unfold set_document_title.
    rewrite (first_element_replace_other is_title doc pm m)
      by (done || eapply meta_not_title; by (done || apply setAttribute_content_meta)).
    rewrite Ht.
    rewrite (first_element_replace_other (is_meta_named "description") doc pt t)
      by (done || by apply title_not_meta).
    rewrite Hm. by apply replace_at_commute.
  - unfold set_document_title.
    rewrite first_element_append_other
      by (eapply meta_not_title; apply new_tag_meta).
    rewrite Ht.
    rewrite (first_element_replace_other (is_meta_named "description") doc pt t)
      by (done || by apply title_not_meta).
    rewrite Hm. apply replace_at_append. by rewrite Hatt.
Qed.

Lemma set_document_title_find_or_append v doc :
  set_document_title v doc
  = find_or_append is_title (set_text v) (createElement "title") doc.
Proof. done. Qed.

Lemma set_description_find_or_append d doc :
  set_description d doc
  = find_or_append (is_meta_named "description") (setAttribute "content" d)
      (setAttribute "name" "description" (createElement "meta")) doc.
Proof. done. Qed.

Section FindOrAppend.
Context (P : Element → Prop) `{!∀ el, Decision (P el)}.
Context (update : Element → Element) (fresh : Element).
Hypothesis update_keeps : ∀ el, P el → P (update el).
Hypothesis fresh_fits : P (update fresh).
Implicit Types (doc : Document).

Lemma find_or_append_first doc :
  ∃ p el, first_element P (find_or_append P update fresh doc) = Some (p, update el).
Proof.
  unfold find_or_append.
  destruct (first_element P doc) as [[p el]|] eqn:Hfirst.
  - pose proof (first_element_Some _ _ _ _ Hfirst) as [_ Hel].
    exists p, el. apply (first_element_replace_same P doc p el); auto.
  - eexists _, fresh. by apply first_element_append_new.
Qed.

Lemma find_or_append_count doc :
  length (filter P (elements (find_or_append P update fresh doc)))
  = length (filter P (elements doc)) `max` 1.
Proof.
  unfold find_or_append.
  destruct (first_element P doc) as [[p el]|] eqn:Hfirst.
  - pose proof (first_element_Some _ _ _ _ Hfirst) as [Hat Hel].
    destruct (filter_replace_same P doc p el (update el) Hat Hel (update_keeps _ Hel))
      as [-> Hpos].
    lia.
  - apply first_element_None in Hfirst.
    unfold elements, head_appendChild in *. simpl.
    apply Forall_app in Hfirst as [Hh Hb].
    rewrite !filter_app, !length_app.
    rewrite (filter_none P (Document.head doc)) by done.
    rewrite (filter_none P (Document.body doc)) by done.
    by rewrite filter_cons_True by done.
Qed.

Lemma find_or_append_length doc :
  length (Document.body (find_or_append P update fresh doc)) = length (Document.body doc)
  ∧ length (Document.head (find_or_append P update fresh doc))
    = length (Document.head doc)
      + match filter P (elements doc) with [] => 1 | _ => 0 end.
Proof.
  unfold find_or_append.
  destruct (first_element P doc) as [[p el]|] eqn:Hfirst.
  - pose proof (first_element_Some _ _ _ _ Hfirst) as [Hat Hel].
    destruct (replace_at_length p (update el) doc) as [-> ->]. split; [done|].
    assert (Hpos : 0 < length (filter P (elements doc))).
    { unfold elements. rewrite filter_app, length_app. destruct p as [i|i]; simpl in Hat.
      - pose proof (filter_nonempty P _ i el Hat Hel). lia.
      - pose proof (filter_nonempty P _ i el Hat Hel). lia. }
    destruct (filter P (elements doc)); simpl in *; lia.
  - apply first_element_None in Hfirst.
    rewrite (filter_none P (elements doc)) by done.
    simpl. by rewrite length_app.
Qed.

(** Elements of another kind are left where and as they are. *)
Lemma find_or_append_others (Q : Element → Prop) `{!∀ el, Decision (Q el)} doc :
  (∀ el, P el → ¬ Q el) →
  first_element Q (find_or_append P update fresh doc) = first_element Q doc
  ∧ filter Q (Document.head (find_or_append P update fresh doc))
    = filter Q (Document.head doc)
  ∧ filter Q (Document.body (find_or_append P update fresh doc))
    = filter Q (Document.body doc).
Proof.
  intros Hsep. unfold find_or_append.
  destruct (first_element P doc) as [[p el]|] eqn:Hfirst.
  - pose proof (first_element_Some _ _ _ _ Hfirst) as [Hat Hel].
    split; [apply (first_element_replace_other Q doc p el); auto|].
    apply (filter_replace_other Q doc p el); auto.
  - split_and!.
    + apply first_element_append_other. auto.
    + apply filter_append_other. auto.
    + done.
Qed.
End FindOrAppend.

Lemma title_elements_split doc :
  title_elements doc
  = filter is_title (Document.head doc) ++ filter is_title (Document.body doc).
Proof. unfold title_elements, elements. by rewrite filter_app. Qed.

Lemma description_tags_split doc :
  description_tags doc
  = filter (is_meta_named "description") (Document.head doc)
    ++ filter (is_meta_named "description") (Document.body doc).
Proof. unfold description_tags, elements. by rewrite filter_app. Qed.

(** X15. After the effect the document has a title element whose text is
    the title given, so that [document.title] reads as that title with
    its white space stripped and collapsed, and the first description tag
    of the document carries the description as content.  The title
    element and the tag are created, as last elements of the head and in
    this order, only when the document had none; otherwise the first one
    is reused, so neither kind of element grows in number beyond what it
    was, or one.  No other element is added, removed or changed, and the
    body keeps its length. *)
Theorem page_seo_sets_description (title description : string) (doc : Document) :
  let doc' := usePageSEO title description doc in
  let other := λ el, ¬ is_title el ∧ ¬ is_meta_named "description" el in
  (∃ place el,
     first_element is_title doc' = Some (place, el)
     ∧ Element.tagName el = "title"
     ∧ Element.textContent el = title)
  ∧ document_title doc' = strip_and_collapse title
  ∧ (∃ place tag,
       querySelector_meta "description" doc' = Some (place, tag)
       ∧ Element.tagName tag = "meta"
       ∧ Element.attributes tag !! "name" = Some "description"
       ∧ Element.attributes tag !! "content" = Some description)
  ∧ length (title_elements doc') = length (title_elements doc) `max` 1
  ∧ length (description_tags doc') = length (description_tags doc) `max` 1
  ∧ filter other (Document.head doc') = filter other (Document.head doc)
  ∧ filter other (Document.body doc') = filter other (Document.body doc)
  ∧ length (Document.body doc') = length (Document.body doc)
  ∧ length (Document.head doc')
    = length (Document.head doc)
      + match title_elements doc with [] => 1 | _ => 0 end
      + match description_tags doc with [] => 1 | _ => 0 end
  ∧ document_title (Game_seo doc)
    = "Health Quest — HIV, PrEP & Reproductive Health Trivia".
Proof.
  intros doc' other.
  assert (Hmain : ∀ title description doc,
    let doc' := usePageSEO title description doc in
    (∃ place el,
       first_element is_title doc' = Some (place, el)
       ∧ Element.tagName el = "title"
       ∧ Element.textContent el = title)
    ∧ document_title doc' = strip_and_collapse title).
  { clear. intros title description doc doc'.
    set (X := set_document_title title doc).
    assert (Hdoc' : doc' = set_description description X) by done.
    destruct (set_document_title_first title doc) as (p & el & Hfirst & Htext).
    fold X in Hfirst.
    pose proof (first_element_Some _ _ _ _ Hfirst) as [_ Htitle].
    destruct (find_or_append_others (is_meta_named "description")
                (setAttribute "content" description)
                (setAttribute "name" "description" (createElement "meta"))
                (setAttribute_content_meta "description" description)
                (new_tag_meta description) is_title X) as (Hsame & _ & _).
    { intros x Hx. by eapply meta_not_title. }
    rewrite <- set_description_find_or_append, <- Hdoc' in Hsame.
    split.
    - exists p, el. by rewrite Hsame.
    - unfold document_title. rewrite Hsame, Hfirst. by rewrite Htext. }
  destruct (Hmain title description doc) as [Htitle Hread].
  split; [exact Htitle|]. split; [exact Hread|].
  set (X := set_document_title title doc).
  assert (Hdoc' : doc' = set_description description X) by done.
  assert (HX : X = find_or_append is_title (set_text title) (createElement "title") doc)
    by done.
  rewrite set_description_find_or_append in Hdoc'.
  (* the title step *)
  pose proof (find_or_append_count is_title (set_text title) (createElement "title")
                (set_text_title title) (new_title title) doc) as HTcount.
  pose proof (find_or_append_length is_title (set_text title) (createElement "title") doc)
    as [HTbody HThead].
  destruct (find_or_append_others is_title (set_text title) (createElement "title")
              (set_text_title title) (new_title title)
              (is_meta_named "description") doc) as (_ & HTmh & HTmb).
  { intros x Hx. by apply title_not_meta. }
  destruct (find_or_append_others is_title (set_text title) (createElement "title")
              (set_text_title title) (new_title title) other doc) as (_ & HToh & HTob).
  { intros x Hx [Hn _]. by apply Hn. }
  rewrite <- HX in HTcount, HTbody, HThead, HTmh, HTmb, HToh, HTob.
  (* the description step *)
  pose proof (find_or_append_first (is_meta_named "description")
                (setAttribute "content" description)
                (setAttribute "name" "description" (createElement "meta"))
                (setAttribute_content_meta "description" description)
                (new_tag_meta description) X) as (pm & m & HDfirst).
  pose proof (find_or_append_count (is_meta_named "description")
                (setAttribute "content" description)
                (setAttribute "name" "description" (createElement "meta"))
                (setAttribute_content_meta "description" description)
                (new_tag_meta description) X) as HDcount.
  pose proof (find_or_append_length (is_meta_named "description")
                (setAttribute "content" description)
                (setAttribute "name" "description" (createElement "meta")) X)
    as [HDbody HDhead].
  destruct (find_or_append_others (is_meta_named "description")
              (setAttribute "content" description)
              (setAttribute "name" "description" (createElement "meta"))
              (setAttribute_content_meta "description" description)
              (new_tag_meta description) is_title X) as (_ & HDth & HDtb).
  { intros x Hx. by eapply meta_not_title. }
  destruct (find_or_append_others (is_meta_named "description")
              (setAttribute "content" description)
              (setAttribute "name" "description" (createElement "meta"))
              (setAttribute_content_meta "description" description)
              (new_tag_meta description) other X) as (_ & HDoh & HDob).
  { intros x Hx [_ Hn]. by apply Hn. }
  rewrite <- Hdoc' in HDfirst, HDcount, HDbody, HDhead, HDth, HDtb, HDoh, HDob.
  assert (Hmeta : filter (is_meta_named "description") (elements X) = description_tags doc).
  { rewrite description_tags_split. unfold elements. by rewrite filter_app, HTmh, HTmb. }
  split_and!.
  - exists pm, (setAttribute "content" description m). split; [exact HDfirst|].
    pose proof (first_element_Some _ _ _ _ HDfirst) as [_ [Htag Hname]].
    split_and!; [done|done|]. simpl. by rewrite lookup_insert_eq.
  - rewrite (title_elements_split doc'), HDth, HDtb, <- title_elements_split.
    exact HTcount.
  - unfold description_tags at 1. rewrite HDcount. by rewrite Hmeta.
  - by rewrite HDoh, HToh.
  - by rewrite HDob, HTob.
  - by rewrite HDbody, HTbody.
  - rewrite HDhead, HThead, Hmeta. done.
  - unfold Game_seo.
    destruct (Hmain "Health Quest — HIV, PrEP & Reproductive Health Trivia"
                "Health Quest: mixed-topic trivia on HIV self-testing, PrEP, and reproductive health. Pick a difficulty, learn fast, and climb the leaderboard."
                doc) as [_ ->].
    reflexivity.
Qed.

(** X16. Running the effect again, with the same or with other texts,
    gives what the last run alone gives: the tag is found again and its
    content overwritten.  Going from the index page to the game and back
    therefore never piles up description tags. *)
Theorem page_seo_last_run_wins (t1 d1 t2 d2 : string) (doc : Document) :
  set_page_seo t2 d2 (set_page_seo t1 d1 doc) = set_page_seo t2 d2 doc
  ∧ usePageSEO t1 d1 (usePageSEO t1 d1 doc) = usePageSEO t1 d1 doc
  ∧ Game_seo (Index_seo doc) = Game_seo doc
  ∧ Index_seo (Game_seo doc) = Index_seo doc.
Proof.
  assert (H : ∀ t1 d1 t2 d2,
            set_page_seo t2 d2 (set_page_seo t1 d1 doc) = set_page_seo t2 d2 doc).
  { clear. intros t1 d1 t2 d2. rewrite !set_page_seo_steps.
    rewrite set_title_description_commute.
    - by rewrite set_document_title_twice, set_description_twice.
    - destruct (set_document_title_first t1 doc) as (p & el & -> & _). done. }
  split_and!; unfold Game_seo, Index_seo, usePageSEO; apply H.
Qed.

(** ** More on shuffling and selecting *)

Lemma swap_app_l {T} (p s : list T) i j :
  i < length p → j < length p → swap (p ++ s) i j = swap p i j ++ s.
Proof.
  intros Hi Hj. unfold swap.
  rewrite !lookup_app_l by done.
  destruct (lookup_lt_is_Some_2 p j Hj) as [pj ->].
  destruct (lookup_lt_is_Some_2 p i Hi) as [pi ->].
  rewrite insert_app_l by done.
  by rewrite insert_app_l by (by rewrite length_insert).
Qed.

Lemma swap_lookup_last {T} (a : list T) i j y :
  i < length a → a !! j = Some y → swap a i j !! i = Some y.
Proof.
  intros Hi Hj. unfold swap. rewrite Hj.
  destruct (lookup_lt_is_Some_2 a i Hi) as [ai Hai]. rewrite Hai.
  destruct (decide (i = j)) as [->|Hne].
  - rewrite list_lookup_insert_eq by (by rewrite length_insert). congruence.
  - rewrite list_lookup_insert_ne by done. by rewrite list_lookup_insert_eq.
Qed.

Section Orders.
Context {T : Type}.
Implicit Types (a p s target : list T) (i k : nat).

(** The loop only asks for the samples from call [k] on. *)
Lemma shuffle_loop_ext (R R' : nat → Sample) i k a :
  (∀ x, k ≤ x → R x = R' x) → shuffle_loop R i k a = shuffle_loop R' i k a.
Proof.
  revert k a. induction i as [|i IH]; intros k a HR; simpl; [done|].
  rewrite (HR k) by done. apply IH. intros x Hx. apply HR. lia.
Qed.

(** The loop entered at index [i] leaves everything behind [i] alone. *)
Lemma shuffle_loop_app (R : nat → Sample) i k p s :
  i < length p →
  (shuffle_loop R i k (p ++ s)).1 = (shuffle_loop R i k p).1 ++ s.
Proof.
  revert k p. induction i as [|i IH]; intros k p Hi; cbn [shuffle_loop]; [done|].
  pose proof (floor_mul_lt (R k) (S i + 1) ltac:(lia)) as Hj.
  rewrite swap_app_l by lia. apply IH. rewrite swap_length. lia.
Qed.

Lemma shuffle_loop_reaches i : ∀ a target k,
  (Z.of_nat (S i) ≤ 2 ^ 32)%Z →
  length a = S i → target ≡ₚ a → ∃ R, (shuffle_loop R i k a).1 = target.
Proof.
  induction i as [|i IH]; intros a target k Hsize Hlen Hperm.
  - exists (λ _, mkSample 0 0). simpl.
    destruct a as [|x [|??]]; simplify_eq/=. by apply Permutation_singleton_r in Hperm.
  - destruct target as [|y t0 _] using rev_ind.
    { apply Permutation_nil_l in Hperm. by subst a. }
    assert (Hy : y ∈ a) by (rewrite <- Hperm; set_solver).
    apply list_elem_of_lookup in Hy as [j Hj].
    assert (Hjlt : j < S i + 1) by (apply lookup_lt_Some in Hj; lia).
    set (a' := swap a (S i) j).
    assert (Hlen' : length a' = S (S i)) by (unfold a'; by rewrite swap_length).
    assert (Hlast : a' !! S i = Some y) by (apply swap_lookup_last; [lia|done]).
    assert (Ha' : a' = take (S i) a' ++ [y]).
    { rewrite <- (take_S_r _ _ _ Hlast). symmetry. apply take_ge. lia. }
    assert (Hp : t0 ≡ₚ take (S i) a').
    { apply (inj (λ l, l ++ [y])). rewrite <- Ha'. unfold a'. by rewrite swap_perm. }
    destruct (IH (take (S i) a') t0 (S k)) as [R' HR'];
      [lia|rewrite length_take; lia|done|].
    pose proof (floor_mul_onto (S i + 1) j Hjlt ltac:(lia)) as Hdraw.
    set (r := mkSample _ 0) in Hdraw.
    exists (λ x, if decide (x = k) then r else R' x).
    cbn [shuffle_loop]. rewrite decide_True by done.
    rewrite Hdraw. fold a'.
    rewrite (shuffle_loop_ext _ R') by (intros x Hx; rewrite decide_False by lia; done).
    rewrite Ha'. rewrite shuffle_loop_app by (rewrite length_take; lia).
    by rewrite HR'.
Qed.
End Orders.

(** X17. Every order can come out of [shuffle]: for each permutation of
    the input there are values of [Math.random] for which [shuffle]
    returns exactly that permutation.  The input is an array of the
    language, which has fewer than [2^32] elements; binary64 samples
    cannot tell more indices apart than there are samples. *)
Theorem shuffle_reaches_every_order (T : Type) (arr target : list T) (k : nat) :
  (Z.of_nat (length arr) < 2 ^ 32)%Z →
  target ≡ₚ arr → ∃ Math_random, (shuffle Math_random arr k).1 = target.
Proof.
  intros Hsize Hperm. unfold shuffle.
  destruct arr as [|x arr].
  - apply Permutation_nil_r in Hperm as ->. by exists (λ _, mkSample 0 0).
  - apply shuffle_loop_reaches; [|simpl; lia|done].
    cbn [length] in Hsize |- *. lia.
Qed.

Lemma shuffle_reaches_every_order_witness :
  ∃ Math_random, (shuffle Math_random [1; 2; 3] 0).1 = [2; 1; 3].
Proof.
  apply (shuffle_reaches_every_order nat [1; 2; 3] [2; 1; 3] 0).
  - reflexivity.
  - apply perm_swap.
Defined.

(** X18. Edge cases of the selector.  With no matching question the batch
    is empty, with one it is that question, and in both cases
    [Math.random] is not called.  A batch size of zero gives an empty
    batch as well, but only after the matching questions were shuffled.
    A batch size of at least their number gives all of them. *)
Theorem select_edge_cases
    (Math_random : nat → Sample) (pool : list Question) (d : Difficulty) (n k : nat) :
  let matching := filter (λ q, Question.difficulty q = d) pool in
  (matching = [] → select Math_random pool d n k = ([], k))
  ∧ (∀ q, matching = [q] → select Math_random pool d n k = (take n [q], k))
  ∧ select Math_random pool d 0 k = ([], k + (length matching - 1))
  ∧ (length matching ≤ n → (select Math_random pool d n k).1 ≡ₚ matching).
Proof.
  intros matching. split_and!.
  - intros Hm. unfold select. fold matching. rewrite Hm. simpl. by rewrite take_nil.
  - intros q Hm. unfold select. fold matching. by rewrite Hm.
  - apply injective_projections.
    + rewrite select_fst. by rewrite take_0.
    + by rewrite select_snd.
  - intros Hn. rewrite select_fst. fold matching.
    rewrite take_ge by (by rewrite shuffle_length). apply shuffle_perm.
Qed.

(** X19. The batch of the older page, which also filters by category and
    keeps five: only questions of the category and difficulty picked, all
    from the bank, no duplicate id when the bank has none, and as many as
    match, up to five. *)
Theorem older_page_batch
    (QUESTIONS : list Question) (Math_random : nat → Sample)
    (c : Category) (d : Difficulty) (k : nat) :
  let batch := (filtered_memo_scoped QUESTIONS Math_random c d k).1 in
  let matching :=
    filter (λ q, Question.category q = c ∧ Question.difficulty q = d) QUESTIONS in
  Forall (λ q, Question.category q = c ∧ Question.difficulty q = d) batch
  ∧ batch ⊆+ QUESTIONS
  ∧ (NoDup (Question.id <$> QUESTIONS) → NoDup (Question.id <$> batch))
  ∧ length batch = 5 `min` length matching
  ∧ (length matching ≤ 5 → batch ≡ₚ matching)
  ∧ (filtered_memo_scoped QUESTIONS Math_random c d k).2 = k + (length matching - 1).
Proof.
  intros batch matching. unfold batch, filtered_memo_scoped.
  destruct (take_shuffle_filter_props Math_random
              (λ q, Question.category q = c ∧ Question.difficulty q = d) QUESTIONS 5 k)
    as (H1 & H2 & H3 & H4).
  rewrite select_scoped_fst. split_and!; try done.
  - intros Hle. fold matching. rewrite take_ge by (by rewrite shuffle_length).
    apply shuffle_perm.
  - unfold select_scoped. fold matching.
    pose proof (shuffle_calls Math_random matching k) as Hcalls.
    by destruct (shuffle Math_random matching k).
Qed.

(** ** The right answer is on the page *)

Lemma QUESTIONS_inline_well_formed :
  Forall (λ q, Question.answerIndex q < length (Question.options q)) QUESTIONS_inline
  ∧ NoDup (Question.id <$> QUESTIONS_inline).
Proof.
  split.
  - repeat constructor; simpl; lia.
  - apply (bool_decide_unpack _). vm_compute. exact I.
Qed.

(** X20. When every question of the bank has its [answerIndex] among
    its options, as those of the inline bank have, the button of the right
    answer is on the page for every question a session reaches, and
    clicking it on a question not yet answered adds the points of the
    difficulty. *)
Theorem right_answer_is_on_the_page
    (QUESTIONS : list Question) (Math_random : nat → Sample) (w : World) (cur : Question) :
  Forall (λ q, Question.answerIndex q < length (Question.options q)) QUESTIONS →
  reachable QUESTIONS Math_random w →
  step (game w) = playing → current (game w) = Some cur →
  let click := ClickOption (Question.answerIndex cur) in
  rendered click (game w) = true
  ∧ (selected (game w) = None →
     score (game (after QUESTIONS Math_random click w))
     = (score (game w) + DIFFICULTY_POINTS (difficulty (game w)))%Z
     ∧ selected (game (after QUESTIONS Math_random click w))
       = Some (Question.answerIndex cur)).
Proof.
  intros Hbank Hreach Hstep Hcur click.
  assert (Hin : cur ∈ QUESTIONS).
  { destruct (reachable_inv _ _ _ Hreach) as (Hq & _).
    destruct (reachable_page_inv _ _ _ Hreach) as (_ & _ & Hsub & _).
    eapply elem_of_submseteq; [|exact Hsub]. rewrite <- Hq.
    by eapply list_elem_of_lookup_2. }
  rewrite Forall_forall in Hbank. pose proof (Hbank _ Hin) as Hans.
  assert (Hr : rendered click (game w) = true).
  { simpl. rewrite Hcur. simpl. apply andb_true_intro.
    split; by apply bool_decide_eq_true_2. }
  split; [done|]. intros Hsel.
  rewrite after_rendered by done. rewrite render_game.
  simpl handler. rewrite lift_fst.
  assert (Hh : (handleOption (Question.answerIndex cur) (game w)).1
               = setScore (score (game w) + DIFFICULTY_POINTS (difficulty (game w)))%Z
                          (setSelected (Some (Question.answerIndex cur)) (game w))).
  { unfold handleOption. rewrite Hsel, Hcur. by rewrite bool_decide_eq_true_2 by done. }
  rewrite Hh. simpl. by rewrite !bool_decide_eq_true_2 by done.
Qed.

Lemma right_answer_is_on_the_page_witness :
  rendered (ClickOption 0) (game sample_started) = true.
Proof.
  assert (Hreach : reachable QUESTIONS_inline sample_oracle sample_started)
    by apply reachable_run, reachable_mount.
  assert (Hstep : step (game sample_started) = playing) by (vm_compute; reflexivity).
  assert (Hcur : current (game sample_started) = Some (Question.mk "prep-e-1" PrEP easy
            "What is PrEP primarily used for?"
            ["Preventing HIV"; "Treating flu"; "Lowering blood pressure"; "Curing HIV"]
            0 (Some "Pre-Exposure Prophylaxis (PrEP) greatly reduces the risk of getting HIV.")))
    by (vm_compute; reflexivity).
  apply (right_answer_is_on_the_page QUESTIONS_inline sample_oracle sample_started _
           (proj1 QUESTIONS_inline_well_formed) Hreach Hstep Hcur).
Defined.
